(** * CONLL2000 data set loader: a shallow embedding of
    [nlp_architect/data/conll2000.py] and the properties of its
    vocabulary builder, corpus parser, character feature builder,
    feature assembler and download helper.

    Conventions of the embedding.
    - A Python [str] is a [string]; a character of a word is an [ascii].
    - A Python [dict] is an association list in insertion order: assigning
      to a key that is present replaces its value in place, assigning to a
      new key appends the item (this is the order [dict.items()] yields
      since Python 3.7).
    - Python integers that count or index are [nat]; the one subtraction
      that can go below zero is done in [Z].
    - Code that can raise returns a [result]; the exceptions are the
      built-in classes the code can raise.
    - A numpy array is the nested list of its rows together with the part
      of its shape that the rows do not determine. *)

From Stdlib Require Import String Ascii List Arith Bool Lia ZArith.
From Stdlib Require Import Sorting.Sorted Sorting.Permutation.
Import ListNotations.
Local Open Scope list_scope.

(* ================================================================== *)
(** * Part I: the program *)
(* ================================================================== *)

(** ** Keys with decidable equality (hashable Python objects) *)

Class EqDec (K : Type) := eq_dec : forall x y : K, {x = y} + {x <> y}.

#[export] Instance string_EqDec : EqDec string := string_dec.
#[export] Instance ascii_EqDec : EqDec ascii := ascii_dec.
#[export] Instance nat_EqDec : EqDec nat := Nat.eq_dec.

(** ** Exceptions and results *)

Inductive exn : Type :=
| KeyError (key : string)      (* dict[key] on a str key that is absent *)
| KeyErrorInt (key : Z)        (* dict[key] on an int key that is absent *)
| IndexError                   (* list[i] out of range *)
| ValueError.                  (* numpy cannot build the requested shape *)

(** [KeyError] and [IndexError] derive from [LookupError]; [ValueError]
    does not. *)
Definition is_LookupError (e : exn) : bool :=
  match e with
  | KeyError _ | KeyErrorInt _ | IndexError => true
  | ValueError => false
  end.

Inductive result (A : Type) : Type :=
| Ok (a : A)
| Raise (e : exn).

Arguments Ok {A} a.
Arguments Raise {A} e.

Definition bind {A B} (r : result A) (k : A -> result B) : result B :=
  match r with
  | Ok a => k a
  | Raise e => Raise e
  end.

Notation "x <- r ;; k" := (bind r (fun x => k))
  (at level 61, r at next level, right associativity).
Notation "' p <- r ;; k" := (bind r (fun p => k))
  (at level 61, p pattern, r at next level, right associativity).

(** A list comprehension whose element expression can raise: elements are
    evaluated left to right and the first exception ends the evaluation. *)
Fixpoint mapM {A B} (f : A -> result B) (l : list A) : result (list B) :=
  match l with
  | [] => Ok []
  | x :: r => y <- f x ;; ys <- mapM f r ;; Ok (y :: ys)
  end.

(** ** Python dictionaries *)

Module Dict.
Section Dict.
Context {K V : Type} `{EqDec K}.

Definition t := list (K * V).

Definition empty : t := [].

(** [d.get(k)] *)
Fixpoint get (d : t) (k : K) : option V :=
  match d with
  | [] => None
  | (k', v) :: r => if eq_dec k k' then Some v else get r k
  end.

(** [d.get(k, dflt)] *)
Definition get_default (d : t) (k : K) (dflt : V) : V :=
  match get d k with
  | Some v => v
  | None => dflt
  end.

(** [d[k] = v], also [d.update({k: v})] *)
Fixpoint set (d : t) (k : K) (v : V) : t :=
  match d with
  | [] => [(k, v)]
  | (k', v') :: r =>
      if eq_dec k k' then (k', v) :: r else (k', v') :: set r k v
  end.

Definition keys (d : t) : list K := map fst d.
Definition values (d : t) : list V := map snd d.
Definition items (d : t) : list (K * V) := d.
End Dict.
Arguments t : clear implicits.
End Dict.

(** ** Small list helpers that mirror Python built-ins *)

(** [enumerate(l)] *)
Definition enumerate {A} (l : list A) : list (nat * A) :=
  combine (seq 0 (length l)) l.

(** Position of the first occurrence of [x] in [l] ([length l] when [x]
    does not occur): the moment at which a single pass over [l] first
    encounters [x]. *)
Fixpoint index_of {K} `{EqDec K} (x : K) (l : list K) : nat :=
  match l with
  | [] => 0
  | y :: r => if eq_dec x y then 0 else S (index_of x r)
  end.

(** The distinct elements of [l] in order of first encounter, skipping
    those already in [seen]. *)
Fixpoint firsts_from {K} `{EqDec K} (seen l : list K) : list K :=
  match l with
  | [] => []
  | x :: r =>
      if in_dec eq_dec x seen then firsts_from seen r
      else x :: firsts_from (seen ++ [x]) r
  end.

Definition firsts {K} `{EqDec K} (l : list K) : list K := firsts_from [] l.

(** Number of occurrences of [x] in [l]. *)
Definition occurrences {K} `{EqDec K} (x : K) (l : list K) : nat :=
  count_occ eq_dec l x.

(** ** Vocabulary builder: [CONLL2000._sentences_to_ints] *)

Section SentencesToInts.
(** [str.lower]; the development holds for whatever it computes. *)
Variable lower : string -> string.

(** The key under which a token is counted (lines 246-247). *)
Definition norm (lowercase : bool) (w : string) : string :=
  if lowercase then lower w else w.

(** Body of the counting loop (lines 246-248). *)
Definition count_word (lowercase : bool) (w_dict : Dict.t string nat)
    (w : string) : Dict.t string nat :=
  let w := norm lowercase w in
  Dict.set w_dict w (Dict.get_default w_dict w 0 + 1).

(** The counting pass (lines 243-248). *)
Definition count_words (lowercase : bool) (texts : list (list string))
    : Dict.t string nat :=
  fold_left (fun d sen => fold_left (count_word lowercase) sen d)
            texts Dict.empty.

(** [sorted(items, key=lambda x: x[1], reverse=True)]: Python's sort is
    stable, also under [reverse=True], so items with equal counts keep
    their order.  A stable sort has one possible result; it is computed
    here by insertion from the right, each item going in front of the
    first item whose count is not larger. *)
Fixpoint insert_desc (x : string * nat) (l : list (string * nat))
    : list (string * nat) :=
  match l with
  | [] => [x]
  | y :: r => if snd x <? snd y then y :: insert_desc x r else x :: y :: r
  end.

Definition sorted_by_count_desc (items : list (string * nat))
    : list (string * nat) :=
  fold_right insert_desc [] items.

(** Lines 249-250. *)
Definition int_to_word (w_dict : Dict.t string nat) : list (nat * string) :=
  map (fun iw => (fst iw, fst (snd iw)))
      (enumerate (sorted_by_count_desc (Dict.items w_dict))).

(** Line 251: [{w: i for i, w in int_to_word}]. *)
Definition build_vocab (itw : list (nat * string)) : Dict.t string nat :=
  fold_left (fun v iw => Dict.set v (snd iw) (fst iw)) itw Dict.empty.

(** [vocab[k]] *)
Definition vocab_lookup (vocab : Dict.t string nat) (k : string)
    : result nat :=
  match Dict.get vocab k with
  | Some i => Ok i
  | None => Raise (KeyError k)
  end.

(** The id-mapping pass (lines 252-253). *)
Definition map_to_ints (vocab : Dict.t string nat) (lowercase : bool)
    (texts : list (list string)) : result (list (list nat)) :=
  mapM (fun sen =>
          mapM (fun w => if lowercase then vocab_lookup vocab (lower w)
                         else vocab_lookup vocab w) sen)
       texts.

Definition _sentences_to_ints (texts : list (list string))
    (lowercase : bool) : result (list (list nat) * Dict.t string nat) :=
  let w_dict := count_words lowercase texts in
  let vocab := build_vocab (int_to_word w_dict) in
  ids <- map_to_ints vocab lowercase texts ;;
  Ok (ids, vocab).
End SentencesToInts.

(** ASCII lower-casing, the restriction of [str.lower] to ASCII text; used
    in the examples. *)
Definition ascii_lower (c : ascii) : ascii :=
  let n := nat_of_ascii c in
  if (65 <=? n) && (n <=? 90) then ascii_of_nat (n + 32) else c.

Fixpoint str_lower (s : string) : string :=
  match s with
  | EmptyString => EmptyString
  | String c r => String (ascii_lower c) (str_lower r)
  end.

(** ** Corpus parser: [CONLL2000.parse_entries] *)

(** [str.isspace] on the code points below 256. *)
Definition is_space (c : ascii) : bool :=
  let n := nat_of_ascii c in
  ((9 <=? n) && (n <=? 13)) || ((28 <=? n) && (n <=? 32))
  || (n =? 133) || (n =? 160).

Fixpoint lstrip (s : string) : string :=
  match s with
  | EmptyString => EmptyString
  | String c r => if is_space c then lstrip r else s
  end.

Fixpoint rstrip (s : string) : string :=
  match s with
  | EmptyString => EmptyString
  | String c r =>
      match rstrip r with
      | EmptyString => if is_space c then EmptyString else String c EmptyString
      | r' => String c r'
      end
  end.

(** [s.strip()] *)
Definition strip (s : string) : string := rstrip (lstrip s).

(** [s.split()]: the maximal runs of non-space characters. *)
Fixpoint split_from (cur : string) (s : string) : list string :=
  match s with
  | EmptyString =>
      match cur with EmptyString => [] | _ => [cur] end
  | String c r =>
      if is_space c then
        match cur with
        | EmptyString => split_from EmptyString r
        | _ => cur :: split_from EmptyString r
        end
      else split_from (cur ++ String c EmptyString)%string r
  end.

Definition split (s : string) : list string := split_from EmptyString s.

(** [zip( *rows)]: the tuples of the k-th elements of the rows, for as long
    as every row has a k-th element; no tuple at all without rows. *)
Fixpoint heads {A} (rows : list (list A)) : option (list A) :=
  match rows with
  | [] => Some []
  | r :: rs =>
      match r, heads rs with
      | x :: _, Some hs => Some (x :: hs)
      | _, _ => None
      end
  end.

Fixpoint zip_upto {A} (n : nat) (rows : list (list A)) : list (list A) :=
  match n with
  | 0 => []
  | S n' =>
      match heads rows with
      | Some hs => hs :: zip_upto n' (map (@tl A) rows)
      | None => []
      end
  end.

Definition zip_star {A} (rows : list (list A)) : list (list A) :=
  match rows with
  | [] => []
  | r :: _ => zip_upto (length r) rows
  end.

(** A sentence as the parser stores it: [list(zip( *block))], the column
    tuples of a block (tokens, POS tags, chunk tags). *)
Definition sentence := list (list string).

(** Line 110. *)
Definition is_blank (line : string) : bool :=
  String.length (strip line) =? 0.

(** Line 115. *)
Definition fields (line : string) : list string :=
  map strip (split (strip line)).

(** Body of the loop over the lines of the file (lines 110-115); the
    state is [(texts, block)]. *)
Definition parse_line (st : list sentence * list (list string))
    (line : string) : list sentence * list (list string) :=
  let (texts, block) := st in
  if is_blank line then
    ((if 1 <? length block then texts ++ [zip_star block] else texts), [])
  else (texts, block ++ [fields line]).

(** [parse_entries] on the lines the file iterator yields. *)
Definition parse_entries (lines : list string) : list sentence :=
  fst (fold_left parse_line lines ([], [])).

(** The blocks of a file as the format describes them: the runs of
    non-blank lines that a blank line closes ([cur] is the run being
    read).  A run that the end of the file cuts short is not closed. *)
Fixpoint closed_blocks (cur : list string) (lines : list string)
    : list (list string) :=
  match lines with
  | [] => []
  | l :: r =>
      if is_blank l then cur :: closed_blocks [] r
      else closed_blocks (cur ++ [l]) r
  end.

(** ** numpy arrays *)

(** A 2-D array: its rows and its number of columns (which the rows do
    not determine when there are none); its shape is
    [(length rows2, ncols)]. Cells are numbers; the padding value 0.0 and
    the integer 0 are the same cell. *)
Record array2 : Type := Array2 { ncols : nat; rows2 : list (list nat) }.

Definition shape2 (a : array2) : list nat := [length (rows2 a); ncols a].

(** [np.zeros((n, w))] *)
Definition np_zeros (n w : nat) : array2 :=
  Array2 w (repeat (repeat 0 w) n).

(** [a[:n]] *)
Definition take_rows (a : array2) (n : nat) : array2 :=
  Array2 (ncols a) (firstn n (rows2 a)).

(** [np.vstack((a, b))]: the column counts must agree. *)
Definition np_vstack (a b : array2) : result array2 :=
  if ncols a =? ncols b then Ok (Array2 (ncols a) (rows2 a ++ rows2 b))
  else Raise ValueError.

(** An array as [np.asarray] builds it from a list of 2-D arrays.  From
    the empty list it builds the 1-D array of shape [(0,)]; from arrays of
    one common shape [(r, c)] it builds the 3-D array of shape
    [(n, r, c)].  The arrays [create_char_features] collects all have the
    shape of the first one (lemma [char_rows_shape]). *)
Record ndarray : Type := NdArray { shape : list nat; mats : list (list (list nat)) }.

Definition np_asarray (l : list array2) : ndarray :=
  match l with
  | [] => NdArray [0] []
  | a :: _ => NdArray (length l :: shape2 a) (map rows2 l)
  end.

(** The cells of an array in row-major order. *)
Definition flat (a : ndarray) : list nat := concat (map (@concat nat) (mats a)).

(** [a.reshape(-1, k)]: the cells are cut into rows of [k]; numpy cannot
    infer the number of rows when [k] is 0 or does not divide the number of
    cells. *)
Definition reshape_rows (a : ndarray) (k : nat) : result (list (list nat)) :=
  if (k =? 0) || negb (length (flat a) mod k =? 0) then Raise ValueError
  else Ok (map (fun i => firstn k (skipn (i * k) (flat a)))
               (seq 0 (length (flat a) / k))).

(** Modelled from the spec: neon's [pad_sentences] is a third-party helper
    whose source is not part of the repository.  The spec gives its
    contract: the output row has exactly the target length; a shorter
    sequence is padded with zeros on the left, a longer one keeps its last
    entries. *)
Definition pad_row (n : nat) (l : list nat) : list nat :=
  repeat 0 (n - length l) ++ skipn (length l - n) l.

Definition pad_sentences (sentences : list (list nat)) (sentence_length : nat)
    : array2 :=
  Array2 sentence_length (map (pad_row sentence_length) sentences).

(** ** Character feature builder: [CONLL2000.create_char_features] *)

(** The two accumulators the loops share: [(char_dict, char_id)]. *)
Definition char_state := (Dict.t ascii nat * nat)%type.

(** Lines 127-131: the id of one character. *)
Definition encode_char (st : char_state) (c : ascii) : nat * char_state :=
  let (char_dict, char_id) := st in
  match Dict.get char_dict c with
  | None => (char_id, (Dict.set char_dict c char_id, char_id + 1))
  | Some char_int => (char_int, st)
  end.

(** Lines 126-132: the loop over the characters of a word; the state is
    [(char_vector, (char_dict, char_id))]. *)
Definition encode_chars (st : char_state) (w : list ascii)
    : list nat * char_state :=
  fold_left (fun acc c =>
               let (i, st') := encode_char (snd acc) c in
               (fst acc ++ [i], st'))
            w ([], st).

(** Lines 125-133: one word, wrapped in the sentinels 1 and 2. *)
Definition encode_word (st : char_state) (w : string)
    : list nat * char_state :=
  let (char_vector, st') := encode_chars st (list_ascii_of_string w) in
  ([1] ++ char_vector ++ [2], st').

(** Lines 123-134: the loop over the words of a sentence; the state is
    [(char_sents, (char_dict, char_id))]. *)
Definition encode_words (st : char_state) (s : list string)
    : list (list nat) * char_state :=
  fold_left (fun acc w =>
               let (v, st') := encode_word (snd acc) w in
               (fst acc ++ [v], st'))
            s ([], st).

(** Lines 136-141: bring the padded word matrix to [sentence_length]
    rows. *)
Definition fit_rows (char_sents : array2) (sentence_length word_length : nat)
    : result array2 :=
  let n := length (rows2 char_sents) in
  if (Z.of_nat sentence_length - Z.of_nat n <? 0)%Z
  then Ok (take_rows char_sents sentence_length)
  else np_vstack (np_zeros (sentence_length - n) word_length) char_sents.

(** Lines 122-142: the loop over the sentences; the state is
    [(new_sentences, (char_dict, char_id))]. *)
Fixpoint char_loop (sentences : list (list string))
    (sentence_length word_length : nat)
    (acc : list array2 * char_state) : result (list array2 * char_state) :=
  match sentences with
  | [] => Ok acc
  | s :: rest =>
      let (char_sents, st') := encode_words (snd acc) s in
      m <- fit_rows (pad_sentences char_sents word_length)
                    sentence_length word_length ;;
      char_loop rest sentence_length word_length (fst acc ++ [m], st')
  end.

(** The returned array and the dictionary stored in
    [self.vocabs['char_rnn']]. *)
Definition create_char_features (sentences : list (list string))
    (sentence_length word_length : nat)
    : result (ndarray * Dict.t ascii nat) :=
  '(new_sentences, st) <-
     char_loop sentences sentence_length word_length
               ([], (Dict.empty, 3)) ;;
  Ok (np_asarray new_sentences, fst st).

(** ** Feature assembler: [CONLL2000.gen_iterators] *)

(** Modelled from the spec: [get_paddedXY_sequence] of
    [nlp_architect.utils.generic] is not among the sources.  The spec
    gives its contract for the call made here ([shuffle=False]): the two
    lists of sequences come back as two arrays with one row per sequence,
    in the same order, each row brought to the target length (truncated,
    or padded with 0 on the left). *)
Definition get_paddedXY_sequence (X y : list (list nat))
    (sentence_length : nat) : list (list nat) * list (list nat) :=
  (map (pad_row sentence_length) X, map (pad_row sentence_length) y).

(** The constructor arguments of [CONLL2000] (lines 48-53). *)
Record CONLL2000 : Type := {
  path : string;
  sentence_length : nat;
  vocab_size : nat;
  use_pos : bool;
  use_chars : bool;
  chars_len : nat;
  use_w2v : bool;
  w2v_path : option string
}.

(** The object that differs from [self] in [vocab_size] only. *)
Definition with_vocab_size (self : CONLL2000) (v : nat) : CONLL2000 :=
  {| path := path self;
     sentence_length := sentence_length self;
     vocab_size := v;
     use_pos := use_pos self;
     use_chars := use_chars self;
     chars_len := chars_len self;
     use_w2v := use_w2v self;
     w2v_path := w2v_path self |}.

Section GenIterators.
Variable lower : string -> string.

(** Embedding vectors are arrays of floats; only their identity
    matters here. [zeros n] is [np.zeros(n)]. *)
Variable vec : Type.
Variable zeros : nat -> vec.

(** The word-embedding collaborator: from a path, the dictionary from
    lower-case words to vectors and the vector size. *)
Variable load_word_embeddings : option string -> Dict.t string vec * nat.

(** The input array of an iterator: rows of ids, or rows of vectors. *)
Inductive features : Type :=
| IntRows (x : list (list nat))
| VecRows (x : list (list vec)).

(** Modelled from the spec: [TaggedTextSequence] and
    [MultiSequenceDataIterator] of
    [nlp_architect.contrib.neon.text_iterators] are not among the
    sources.  They are the batch-iterator collaborator, built from
    aligned arrays and a step count; an iterator is represented by the
    arguments it was built from. *)
Record TaggedTextSequence : Type := {
  steps : nat;
  x : features;
  y : option (list (list nat));
  num_classes : option nat;
  vec_input : bool
}.

Inductive iterator : Type :=
| Single (it : TaggedTextSequence)
| MultiSequenceDataIterator (its : list TaggedTextSequence).

(** What [gen_iterators] leaves behind: the attributes it sets on
    [self] and the dictionary it returns. *)
Record outputs : Type := {
  vocabs_token : Dict.t string nat;
  vocabs_pos : option (Dict.t string nat);
  vocabs_char_rnn : option (Dict.t ascii nat);
  y_vocab : Dict.t string nat;
  y_size : nat;
  emb_size : option nat;
  data_train : iterator;
  data_test : iterator
}.

(** [list(zip( *set))[k]]: column [k] of every sentence of the set. *)
Definition column (k : nat) (set : list sentence)
    : result (list (list string)) :=
  match nth_error (zip_star set) k with
  | Some c => Ok c
  | None => Raise IndexError
  end.

(** Line 169: [{i: s for s, i in X_vocab.items()}]. *)
Definition invert_vocab (X_vocab : Dict.t string nat) : Dict.t nat string :=
  fold_left (fun d si => Dict.set d (snd si) (fst si))
            (Dict.items X_vocab) Dict.empty.

(** Lines 174-182: the vector of one cell of [X]. *)
Definition w2v_cell (x_vocab_is : Dict.t nat string)
    (w2v_dict : Dict.t string vec) (emb : nat) (w : nat) : result vec :=
  if (0 <=? w) && (w <=? 2) then Ok (zeros emb)
  else
    match Dict.get x_vocab_is (w - 3) with
    | None => Raise (KeyErrorInt (Z.of_nat w - 3))
    | Some word =>
        match Dict.get w2v_dict (lower word) with
        | Some v => Ok v
        | None => Ok (zeros emb)
        end
    end.

(** Lines 171-184. *)
Definition w2v_rows (x_vocab_is : Dict.t nat string)
    (w2v_dict : Dict.t string vec) (emb : nat) (X : list (list nat))
    : result (list (list vec)) :=
  mapM (mapM (w2v_cell x_vocab_is w2v_dict emb)) X.

(** [TaggedTextSequence(steps=..., x=...)] *)
Definition unlabelled (n : nat) (rows : list (list nat))
    : TaggedTextSequence :=
  {| steps := n; x := IntRows rows; y := None; num_classes := None;
     vec_input := false |}.

(** Lines 166-203: the iterators of the token stream, with the size of
    the embedding vectors when they are used. *)
Definition token_iterators (self : CONLL2000) (num_train_samples : nat)
    (X : list (list nat)) (X_vocab : Dict.t string nat)
    (y : list (list nat)) (y_size : nat)
    : result (option nat * TaggedTextSequence * TaggedTextSequence) :=
  if use_w2v self then
    let (w2v_dict, emb) := load_word_embeddings (w2v_path self) in
    X_w2v <- w2v_rows (invert_vocab X_vocab) w2v_dict emb X ;;
    Ok (Some emb,
        {| steps := sentence_length self;
           x := VecRows (firstn num_train_samples X_w2v);
           y := Some (firstn num_train_samples y);
           num_classes := Some y_size; vec_input := true |},
        {| steps := sentence_length self;
           x := VecRows (skipn num_train_samples X_w2v);
           y := Some (skipn num_train_samples y);
           num_classes := Some y_size; vec_input := true |})
  else
    Ok (None,
        {| steps := sentence_length self;
           x := IntRows (firstn num_train_samples X);
           y := Some (firstn num_train_samples y);
           num_classes := Some y_size; vec_input := false |},
        {| steps := sentence_length self;
           x := IntRows (skipn num_train_samples X);
           y := Some (skipn num_train_samples y);
           num_classes := Some y_size; vec_input := false |}).

(** Lines 205-214: the POS vocabulary and the iterators appended for
    the POS stream. *)
Definition pos_iterators (self : CONLL2000) (num_train_samples : nat)
    (train_set test_set : list sentence) (y : list (list nat))
    : result (option (Dict.t string nat)
              * list TaggedTextSequence * list TaggedTextSequence) :=
  if use_pos self then
    tr1 <- column 1 train_set ;;
    te1 <- column 1 test_set ;;
    PV <- _sentences_to_ints lower (tr1 ++ te1) true ;;
    let X_pos :=
      fst (get_paddedXY_sequence (fst PV) y (sentence_length self)) in
    Ok (Some (snd PV),
        [unlabelled (sentence_length self)
                    (firstn num_train_samples X_pos)],
        [unlabelled (sentence_length self)
                    (skipn num_train_samples X_pos)])
  else Ok (None, [], []).

(** Lines 216-226: the character dictionary and the iterators appended
    for the character stream. *)
Definition char_iterators (self : CONLL2000) (num_train_samples : nat)
    (sents : list (list string))
    : result (option (Dict.t ascii nat)
              * list TaggedTextSequence * list TaggedTextSequence) :=
  if use_chars self then
    CD <- create_char_features sents (sentence_length self)
                               (chars_len self) ;;
    char_sentences <-
      reshape_rows (fst CD) (sentence_length self * chars_len self) ;;
    Ok (Some (snd CD),
        [unlabelled (chars_len self * sentence_length self)
                    (firstn num_train_samples char_sentences)],
        [unlabelled (chars_len self * sentence_length self)
                    (skipn num_train_samples char_sentences)])
  else Ok (None, [], []).

(** [gen_iterators] on the two sets [load_data] returns. *)
Definition gen_iterators (self : CONLL2000)
    (train_set test_set : list sentence) : result outputs :=
  let num_train_samples := length train_set in
  (* lines 151-153 *)
  tr0 <- column 0 train_set ;;
  te0 <- column 0 test_set ;;
  let sents := tr0 ++ te0 in
  XV <- _sentences_to_ints lower sents false ;;
  let X := fst XV in
  let X_vocab := snd XV in
  (* lines 155-162 *)
  tr2 <- column 2 train_set ;;
  te2 <- column 2 test_set ;;
  yV <- _sentences_to_ints lower (tr2 ++ te2) false ;;
  let y_vocab := snd yV in
  let Xy := get_paddedXY_sequence X (fst yV) (sentence_length self) in
  let X := fst Xy in
  let y := snd Xy in
  let y_size := length y_vocab + 1 in
  (* lines 166-226 *)
  tok <- token_iterators self num_train_samples X X_vocab y y_size ;;
  pos <- pos_iterators self num_train_samples train_set test_set y ;;
  chars <- char_iterators self num_train_samples sents ;;
  let train_iters := [snd (fst tok)] ++ snd (fst pos) ++ snd (fst chars) in
  let test_iters := [snd tok] ++ snd pos ++ snd chars in
  (* lines 228-234 *)
  let multi := 1 <? length train_iters in
  Ok {| vocabs_token := X_vocab;
        vocabs_pos := fst (fst pos);
        vocabs_char_rnn := fst (fst chars);
        y_vocab := y_vocab;
        y_size := y_size;
        emb_size := fst (fst tok);
        data_train :=
          if multi then MultiSequenceDataIterator train_iters
          else Single (hd (snd (fst tok)) train_iters);
        data_test :=
          if multi then MultiSequenceDataIterator test_iters
          else Single (hd (snd tok) test_iters) |}.
End GenIterators.

Arguments IntRows {vec} x.
Arguments VecRows {vec} x.
Arguments Build_TaggedTextSequence {vec}.
Arguments steps {vec} t.
Arguments x {vec} t.
Arguments y {vec} t.
Arguments num_classes {vec} t.
Arguments vec_input {vec} t.
Arguments Single {vec} it.
Arguments MultiSequenceDataIterator {vec} its.
Arguments Build_outputs {vec}.
Arguments vocabs_token {vec} o.
Arguments vocabs_pos {vec} o.
Arguments vocabs_char_rnn {vec} o.
Arguments y_vocab {vec} o.
Arguments y_size {vec} o.
Arguments emb_size {vec} o.
Arguments data_train {vec} o.
Arguments data_test {vec} o.
Arguments unlabelled {vec} n rows.
Arguments w2v_cell lower {vec} zeros.
Arguments w2v_rows lower {vec} zeros.
Arguments token_iterators lower {vec} zeros.
Arguments pos_iterators lower {vec}.
Arguments char_iterators {vec}.
Arguments gen_iterators lower {vec} zeros.

(** ** Download helper: the path [CONLL2000.load_gzip] returns *)

(** [sep in s] on strings. *)
Fixpoint contains (sep s : string) : bool :=
  prefix sep s ||
  match s with
  | EmptyString => false
  | String _ r => contains sep r
  end.

(** [s.split(sep)[0]] for a non-empty [sep]: what stands before the
    first occurrence of [sep], all of [s] when there is none. *)
Fixpoint before_first (sep s : string) : string :=
  if prefix sep s then EmptyString
  else match s with
       | EmptyString => EmptyString
       | String c r => String c (before_first sep r)
       end.

(** Lines 88-94, as a function of the path that line 84 computed: the
    path that [load_gzip] returns.  Fetching the file, reading it through
    gzip and writing it back are effects on the file system and are not
    part of the embedding. *)
Definition load_gzip_path (filepath : string) : string :=
  if contains ".gz" filepath then before_first ".gz" filepath
  else filepath.

(** ** Notions the properties are stated and proved with *)

Section VocabularyNotions.
Variable lower : string -> string.

(** The keys the passes use, in the order of the passes. *)
Definition tokens (lowercase : bool) (texts : list (list string)) : list string :=
  map (norm lower lowercase) (concat texts).

(** One step of the counting pass on the key itself. *)
Definition count_key (d : Dict.t string nat) (k : string) : Dict.t string nat :=
  Dict.set d k (Dict.get_default d k 0 + 1).

(** The words of the vocabulary in id order. *)
Definition ranked (lowercase : bool) (texts : list (list string)) : list string :=
  map fst (sorted_by_count_desc (count_words lower lowercase texts)).

(** The rank order in terms of the token stream. *)
Definition outranks (toks : list string) (w1 w2 : string) : Prop :=
  occurrences w2 toks < occurrences w1 toks \/
  (occurrences w1 toks = occurrences w2 toks /\
   index_of w1 toks < index_of w2 toks).
End VocabularyNotions.

(** [ranks_before d a b]: item [a] must come before item [b] when the
    items of [d] are sorted by descending count and items of equal count
    keep the order they have in [d]. *)
Definition ranks_before (d : Dict.t string nat) (a b : string * nat) : Prop :=
  snd b < snd a \/
  (snd a = snd b /\
   index_of (fst a) (Dict.keys d) < index_of (fst b) (Dict.keys d)).

(** Whether a string has a whitespace character. *)
Fixpoint has_space (s : string) : bool :=
  match s with
  | EmptyString => false
  | String c r => is_space c || has_space r
  end.

(** The sentence a block of raw lines becomes. *)
Definition sentence_of (b : list string) : sentence := zip_star (map fields b).

Definition multi_line (b : list string) : bool := 1 <? length b.

(** The state of the builder once the characters [ks] have been met, in
    this order. *)
Definition st_of (ks : list ascii) : char_state :=
  (combine ks (seq 3 (length ks)), 3 + length ks).

(** The id of a character under the keys [ks]. *)
Definition char_id_of (ks : list ascii) (c : ascii) : nat := 3 + index_of c ks.

(** The vector of a word under the keys [ks] (line 133). *)
Definition char_ids (ks : list ascii) (w : string) : list nat :=
  [1] ++ map (char_id_of ks) (list_ascii_of_string w) ++ [2].

(** All characters of a sentence, and of a corpus, in reading order. *)
Definition sentence_chars (s : list string) : list ascii :=
  concat (map list_ascii_of_string s).

Definition corpus_chars (sentences : list (list string)) : list ascii :=
  concat (map sentence_chars sentences).

(** The padded vectors of the words of a sentence under the keys [ks]
    (the rows of [pad_sentences(char_sents, word_length)]). *)
Definition word_rows (ks : list ascii) (W : nat) (s : list string)
    : list (list nat) :=
  map (pad_row W) (map (char_ids ks) s).

(** What lines 136-141 make of a list of rows. *)
Definition fitted_rows (S W : nat) (rows : list (list nat)) : list (list nat) :=
  if S <? length rows then firstn S rows
  else repeat (repeat 0 W) (S - length rows) ++ rows.

(** The vector of a word under a character dictionary (line 133). *)
Definition word_vector (char_dict : Dict.t ascii nat) (w : string) : list nat :=
  [1] ++ map (fun c => Dict.get_default char_dict c 0)
             (list_ascii_of_string w) ++ [2].

(** Column [k] of a sentence (the empty tuple when it has no such
    column). *)
Definition col (k : nat) (s : sentence) : list string := nth k s [].

(** The ids the vocabulary gives to the words of a sentence. *)
Definition ids_of (lower : string -> string) (lowercase : bool)
    (vocab : Dict.t string nat) (ws : list string) : list nat :=
  map (fun w => Dict.get_default vocab (norm lower lowercase w) 0) ws.

(** A row of a feature array, and the rows an iterator was given. *)
Inductive row (vec : Type) : Type :=
| IntRow (r : list nat)
| VecRow (r : list vec).

Arguments IntRow {vec} r.
Arguments VecRow {vec} r.

Definition feature_rows {vec} (f : features vec) : list (row vec) :=
  match f with
  | IntRows x => map IntRow x
  | VecRows x => map VecRow x
  end.

(** The iterators behind an entry of the returned dictionary. *)
Definition iterators {vec} (it : iterator vec) : list (TaggedTextSequence vec) :=
  match it with
  | Single i => [i]
  | MultiSequenceDataIterator its => its
  end.

(** The number of entries of a row. *)
Definition row_length {vec} (r : row vec) : nat :=
  match r with
  | IntRow r => length r
  | VecRow r => length r
  end.

Section RowFunctions.
Variable lower : string -> string.
Variable vec : Type.
Variable zeros : nat -> vec.
Variable load_word_embeddings : option string -> Dict.t string vec * nat.
Implicit Types (self : CONLL2000) (s : sentence) (out : outputs vec).

(** The rows that the streams give to one sentence, under the
    vocabularies built over the whole corpus. *)
Definition token_row self (vocab : Dict.t string nat) s : list nat :=
  pad_row (sentence_length self) (ids_of lower false vocab (col 0 s)).

Definition label_row self (vocab : Dict.t string nat) s : list nat :=
  pad_row (sentence_length self) (ids_of lower false vocab (col 2 s)).

Definition w2v_vec self (vocab : Dict.t string nat) (w : nat) : vec :=
  match w2v_cell lower zeros (invert_vocab vocab)
                 (fst (load_word_embeddings (w2v_path self)))
                 (snd (load_word_embeddings (w2v_path self))) w with
  | Ok v => v
  | Raise _ => zeros (snd (load_word_embeddings (w2v_path self)))
  end.

Definition first_row self (vocab : Dict.t string nat) s : row vec :=
  if use_w2v self
  then VecRow (map (w2v_vec self vocab) (token_row self vocab s))
  else IntRow (token_row self vocab s).

Definition pos_row self (vocab : Dict.t string nat) s : row vec :=
  IntRow (pad_row (sentence_length self) (ids_of lower true vocab (col 1 s))).

Definition char_row self (char_dict : Dict.t ascii nat) s : row vec :=
  IntRow (concat (fitted_rows (sentence_length self) (chars_len self)
                    (map (pad_row (chars_len self))
                         (map (word_vector char_dict) (col 0 s))))).

Definition pos_functions self (v : option (Dict.t string nat))
    : list (sentence -> row vec) :=
  match v with Some pv => [pos_row self pv] | None => [] end.

Definition char_functions self (v : option (Dict.t ascii nat))
    : list (sentence -> row vec) :=
  match v with Some cd => [char_row self cd] | None => [] end.

(** One row function per feature stream, in the order of the
    iterators. *)
Definition row_functions self out : list (sentence -> row vec) :=
  [first_row self (vocabs_token out)]
  ++ pos_functions self (vocabs_pos out)
  ++ char_functions self (vocabs_char_rnn out).

Definition rows_of (it : TaggedTextSequence vec) : list (row vec) :=
  feature_rows (x it).

(** An iterator built without labels (lines 211-226). *)
Definition plain (n : nat) (it : TaggedTextSequence vec) : Prop :=
  steps it = n /\ y it = None /\ num_classes it = None /\
  vec_input it = false.
End RowFunctions.

Arguments w2v_vec lower {vec} zeros load_word_embeddings self vocab w.
Arguments first_row lower {vec} zeros load_word_embeddings self vocab s.
Arguments pos_row lower {vec} self vocab s.
Arguments char_row {vec} self char_dict s.
Arguments pos_functions lower {vec} self v.
Arguments char_functions {vec} self v.
Arguments row_functions lower {vec} zeros load_word_embeddings self out.
Arguments rows_of {vec} it.
Arguments plain {vec} n it.

(** ** A small corpus for the examples *)

Definition ex_self : CONLL2000 :=
  {| path := "."%string; sentence_length := 3; vocab_size := 2;
     use_pos := true; use_chars := true; chars_len := 4;
     use_w2v := false; w2v_path := None |}.

Definition ex_train : list sentence :=
  [[["He"; "runs"]; ["PRP"; "VBZ"]; ["B-NP"; "B-VP"]]]%string.

Definition ex_test : list sentence :=
  [[["She"; "runs"; "far"; "away"]; ["PRP"; "VBZ"; "RB"; "RB"];
    ["B-NP"; "B-VP"; "B-ADVP"; "I-ADVP"]]]%string.

(** Embeddings for the examples: vectors are numbers, none is known. *)
Definition ex_zeros (n : nat) : nat := 0.
Definition ex_embeddings (p : option string) : Dict.t string nat * nat :=
  ([], 0).

(* ================================================================== *)
(** * Part II: properties *)
(* ================================================================== *)

(** ** Runs on small inputs *)

Local Open Scope string_scope.
Example sentences_to_ints_ex :
  _sentences_to_ints str_lower [["The"; "cat"; "saw"; "the"; "Cat"]; ["a"; "cat"]] true
  = Ok ([[1; 0; 2; 1; 0]; [3; 0]], [("cat", 0); ("the", 1); ("saw", 2); ("a", 3)]).
Proof. reflexivity. Qed.

Example create_char_features_ex :
  create_char_features [["ab"; "ba"; "c"]; ["a"]] 2 4
  = Ok (NdArray [2; 2; 4]
                [[[1; 3; 4; 2]; [1; 4; 3; 2]];
                 [[0; 0; 0; 0]; [0; 1; 3; 2]]],
        [("a"%char, 3); ("b"%char, 4); ("c"%char, 5)]).
Proof. reflexivity. Qed.

Example parse_entries_ex :
  parse_entries ["He PRP B-NP"; "runs VBZ B-VP"; ""; "Hi UH"; "";
                 "a DT B-NP"; "b NN I-NP"]
  = [[["He"; "runs"]; ["PRP"; "VBZ"]; ["B-NP"; "B-VP"]]].
Proof. reflexivity. Qed.
Local Close Scope string_scope.

(** ** Dictionaries *)

Section DictFacts.
Context {K V : Type} `{EqDec K}.
Implicit Types (d : Dict.t K V) (k : K) (v : V).

Lemma get_set d k v k' :
  Dict.get (Dict.set d k v) k' =
  if eq_dec k' k then Some v else Dict.get d k'.
Proof.
  induction d as [|[k0 v0] d IH]; simpl.
  - destruct (eq_dec k' k); reflexivity.
  - destruct (eq_dec k k0) as [->|Hk]; simpl.
    + destruct (eq_dec k' k0); reflexivity.
    + destruct (eq_dec k' k0) as [->|Hk'].
      * destruct (eq_dec k0 k); congruence.
      * exact IH.
Qed.

Lemma get_set_same d k v : Dict.get (Dict.set d k v) k = Some v.
Proof. rewrite get_set. destruct (eq_dec k k); congruence. Qed.

Lemma get_set_other d k v k' :
  k' <> k -> Dict.get (Dict.set d k v) k' = Dict.get d k'.
Proof. intros. rewrite get_set. destruct (eq_dec k' k); congruence. Qed.

Lemma get_None d k : Dict.get d k = None <-> ~ In k (Dict.keys d).
Proof.
  induction d as [|[k0 v0] d IH]; simpl.
  - tauto.
  - destruct (eq_dec k k0) as [->|Hk].
    + split; [discriminate | tauto].
    + rewrite IH. split; [intros ? [?|?]; congruence | tauto].
Qed.

Lemma get_Some_key d k v : Dict.get d k = Some v -> In k (Dict.keys d).
Proof.
  intros Hg. destruct (in_dec eq_dec k (Dict.keys d)) as [|Hn]; auto.
  apply get_None in Hn. congruence.
Qed.

Lemma get_Some_In d k v : Dict.get d k = Some v -> In (k, v) d.
Proof.
  induction d as [|[k0 v0] d IH]; simpl; [discriminate|].
  destruct (eq_dec k k0) as [->|Hk].
  - intros [= ->]. now left.
  - intros. right. auto.
Qed.

Lemma In_get d k v : NoDup (Dict.keys d) -> In (k, v) d -> Dict.get d k = Some v.
Proof.
  induction d as [|[k0 v0] d IH]; simpl; [tauto|].
  intros Hnd [Heq|Hin]; inversion Hnd as [|? ? Hnotin Hnd']; subst.
  - inversion Heq; subst. destruct (eq_dec k k); congruence.
  - destruct (eq_dec k k0) as [->|Hk]; auto.
    exfalso. apply Hnotin. change k0 with (fst (k0, v)). now apply in_map.
Qed.

Lemma set_absent d k v : Dict.get d k = None -> Dict.set d k v = d ++ [(k, v)].
Proof.
  induction d as [|[k0 v0] d IH]; simpl; auto.
  destruct (eq_dec k k0); [discriminate|].
  intros. now rewrite IH.
Qed.

Lemma keys_set_present d k v :
  In k (Dict.keys d) -> Dict.keys (Dict.set d k v) = Dict.keys d.
Proof.
  induction d as [|[k0 v0] d IH]; simpl; [tauto|].
  destruct (eq_dec k k0) as [->|Hk]; simpl; auto.
  intros [?|Hin]; [congruence|]. f_equal. now apply IH.
Qed.

Lemma keys_set_absent d k v :
  ~ In k (Dict.keys d) -> Dict.keys (Dict.set d k v) = Dict.keys d ++ [k].
Proof.
  intros Hn. apply get_None in Hn. rewrite (set_absent _ _ v Hn).
  unfold Dict.keys. now rewrite map_app.
Qed.
End DictFacts.

(** ** First encounters *)

Section FirstsFacts.
Context {K : Type} `{EqDec K}.
Implicit Types (x y : K) (l seen : list K).

Lemma index_of_lt x l : In x l <-> index_of x l < length l.
Proof.
  induction l as [|y l IH]; simpl.
  - split; [tauto | lia].
  - destruct (eq_dec x y) as [->|Hxy].
    + split; [lia | auto].
    + rewrite <- Nat.succ_lt_mono, <- IH.
      split; [intros [?|?]; congruence || auto | auto].
Qed.

Lemma nth_error_index_of x l : In x l -> nth_error l (index_of x l) = Some x.
Proof.
  induction l as [|y l IH]; simpl; [tauto|].
  destruct (eq_dec x y) as [->|Hxy]; simpl; auto.
  intros [?|?]; [congruence | auto].
Qed.

Lemma index_of_nth_error l i x :
  NoDup l -> nth_error l i = Some x -> index_of x l = i.
Proof.
  revert i. induction l as [|y l IH]; intros [|i] Hnd Hn; simpl in *;
    try discriminate.
  - inversion Hn; subst. destruct (eq_dec x x); congruence.
  - inversion Hnd as [|? ? Hnotin Hnd']; subst.
    destruct (eq_dec x y) as [->|Hxy].
    + exfalso. apply Hnotin. eapply nth_error_In; eauto.
    + f_equal. auto.
Qed.

Lemma index_of_app_l x l l' : In x l -> index_of x (l ++ l') = index_of x l.
Proof.
  induction l as [|y l IH]; simpl; [tauto|].
  destruct (eq_dec x y); auto.
  intros [?|?]; [congruence | f_equal; auto].
Qed.

Lemma index_of_app_r x l l' :
  ~ In x l -> index_of x (l ++ l') = length l + index_of x l'.
Proof.
  induction l as [|y l IH]; simpl; auto.
  destruct (eq_dec x y) as [->|]; [tauto|].
  intros. f_equal. apply IH. tauto.
Qed.

Lemma firsts_from_In seen l x :
  In x (firsts_from seen l) <-> In x l /\ ~ In x seen.
Proof.
  revert seen. induction l as [|y l IH]; intros seen; simpl.
  - tauto.
  - destruct (in_dec eq_dec y seen) as [Hy|Hy].
    + rewrite IH. split; [tauto|].
      intros [[->|?] ?]; tauto.
    + simpl. rewrite IH, in_app_iff. simpl.
      destruct (eq_dec y x) as [->|Hyx]; tauto.
Qed.

Lemma firsts_from_NoDup seen l : NoDup (firsts_from seen l).
Proof.
  revert seen. induction l as [|y l IH]; intros seen; simpl.
  - constructor.
  - destruct (in_dec eq_dec y seen); auto.
    constructor; auto.
    rewrite firsts_from_In, in_app_iff. simpl. tauto.
Qed.

(** Two elements stand in the list of first encounters in the order in
    which the pass first meets them. *)
Lemma firsts_from_order seen l a b :
  ~ In a seen -> ~ In b seen -> In a l -> In b l ->
  (index_of a (firsts_from seen l) < index_of b (firsts_from seen l)
   <-> index_of a l < index_of b l).
Proof.
  revert seen. induction l as [|y l IH]; intros seen Ha Hb Hal Hbl;
    simpl in *; [tauto|].
  destruct (in_dec eq_dec y seen) as [Hy|Hy].
  - destruct (eq_dec a y) as [->|Hay]; [tauto|].
    destruct (eq_dec b y) as [->|Hby]; [tauto|].
    rewrite <- Nat.succ_lt_mono. apply IH; auto; intuition congruence.
  - simpl.
    destruct (eq_dec a y) as [->|Hay]; destruct (eq_dec b y) as [->|Hby];
      try (split; lia).
    rewrite <- !Nat.succ_lt_mono.
    apply IH; rewrite ?in_app_iff; simpl; intuition congruence.
Qed.

Lemma firsts_In l x : In x (firsts l) <-> In x l.
Proof. unfold firsts. rewrite firsts_from_In. simpl. tauto. Qed.

Lemma firsts_NoDup l : NoDup (firsts l).
Proof. apply firsts_from_NoDup. Qed.

Lemma firsts_order l a b :
  In a l -> In b l ->
  (index_of a (firsts l) < index_of b (firsts l)
   <-> index_of a l < index_of b l).
Proof. intros. apply firsts_from_order; simpl; auto. Qed.
End FirstsFacts.

(** ** Results *)

Lemma mapM_Ok {A B} (f : A -> result B) (g : A -> B) (l : list A) :
  (forall a, In a l -> f a = Ok (g a)) -> mapM f l = Ok (map g l).
Proof.
  induction l as [|a l IH]; simpl; intros Hf; auto.
  rewrite (Hf a), IH by auto. reflexivity.
Qed.

Lemma mapM_Ok_inv {A B} (f : A -> result B) (l : list A) (bs : list B) :
  mapM f l = Ok bs -> forall a, In a l -> exists b, f a = Ok b.
Proof.
  revert bs. induction l as [|x l IH]; simpl; intros bs Hm a Hin; [tauto|].
  destruct (f x) as [y|e] eqn:Hx; simpl in Hm; [|discriminate].
  destruct (mapM f l) as [ys|e] eqn:Hl; simpl in Hm; [|discriminate].
  destruct Hin as [<-|Hin]; eauto.
Qed.

Lemma mapM_Raise_inv {A B} (f : A -> result B) (l : list A) (e : exn) :
  mapM f l = Raise e -> exists a, In a l /\ f a = Raise e.
Proof.
  induction l as [|x l IH]; simpl; intros Hm; [discriminate|].
  destruct (f x) as [y|e'] eqn:Hx; simpl in Hm.
  - destruct (mapM f l) as [ys|e'] eqn:Hl; simpl in Hm; [discriminate|].
    destruct IH as [a [Hin Ha]]; [congruence|]. eauto.
  - inversion Hm; subst. eauto.
Qed.

(** ** Vocabulary builder *)

Lemma fold_left_concat {A B} (f : A -> B -> A) (ls : list (list B)) (a : A) :
  fold_left (fun acc l => fold_left f l acc) ls a = fold_left f (concat ls) a.
Proof.
  revert a. induction ls as [|l ls IH]; intros a; simpl; auto.
  now rewrite IH, fold_left_app.
Qed.

Lemma StronglySorted_nth {A} (R : A -> A -> Prop) (s : list A) :
  StronglySorted R s ->
  forall i j a b, i < j -> nth_error s i = Some a -> nth_error s j = Some b ->
                  R a b.
Proof.
  induction 1 as [|x s Hs IH Hall]; intros i j a b Hij Ha Hb.
  - destruct i; discriminate.
  - destruct j as [|j]; [lia|]. simpl in Hb. destruct i as [|i]; simpl in Ha.
    + inversion Ha; subst. rewrite Forall_forall in Hall.
      apply Hall. eapply nth_error_In; eauto.
    + apply (IH i j a b); auto. lia.
Qed.

Lemma StronglySorted_weaken {A} (R R' : A -> A -> Prop) (s : list A) :
  (forall a b, In a s -> In b s -> R a b -> R' a b) ->
  StronglySorted R s -> StronglySorted R' s.
Proof.
  intros Himp Hs. induction Hs as [|x s Hs IH Hall]; constructor.
  - apply IH. intros; apply Himp; simpl; auto.
  - rewrite Forall_forall in *. intros b Hb.
    apply Himp; simpl; auto.
Qed.

(** The id of a key in [combine ws (seq s n)] is its position. *)
Lemma get_combine_seq {K} `{EqDec K} (ws : list K) (s : nat) (w : K) :
  In w ws ->
  Dict.get (combine ws (seq s (length ws))) w = Some (s + index_of w ws).
Proof.
  revert s. induction ws as [|x ws IH]; intros s; simpl; [tauto|].
  destruct (eq_dec w x) as [->|Hwx].
  - intros _. f_equal. lia.
  - intros [?|Hin]; [congruence|]. rewrite IH by auto. f_equal. lia.
Qed.

Lemma keys_combine_seq {K} (ws : list K) (s : nat) :
  Dict.keys (combine ws (seq s (length ws))) = ws.
Proof.
  unfold Dict.keys. revert s.
  induction ws as [|x ws IH]; intros s; simpl; auto. now rewrite IH.
Qed.

Lemma values_combine_seq {K} (ws : list K) (s : nat) :
  Dict.values (combine ws (seq s (length ws))) = seq s (length ws).
Proof.
  unfold Dict.values. revert s.
  induction ws as [|x ws IH]; intros s; simpl; auto. now rewrite IH.
Qed.

Section VocabFacts.
Variable lower : string -> string.

Lemma count_words_fold lowercase texts :
  count_words lower lowercase texts =
  fold_left count_key (tokens lower lowercase texts) Dict.empty.
Proof.
  unfold count_words, tokens. rewrite fold_left_concat.
  generalize (@Dict.empty string nat). generalize (concat texts).
  induction l as [|w l IH]; intros d; simpl; auto.
Qed.

Lemma count_key_keys l : forall d,
  Dict.keys (fold_left count_key l d) =
  Dict.keys d ++ firsts_from (Dict.keys d) l.
Proof.
  induction l as [|x l IH]; intros d; simpl.
  - now rewrite app_nil_r.
  - rewrite IH. unfold count_key.
    destruct (in_dec eq_dec x (Dict.keys d)) as [Hx|Hx].
    + now rewrite keys_set_present.
    + rewrite keys_set_absent by auto. now rewrite <- app_assoc.
Qed.

Lemma count_key_get l : forall d k,
  Dict.get_default (fold_left count_key l d) k 0 =
  Dict.get_default d k 0 + occurrences k l.
Proof.
  unfold occurrences.
  induction l as [|x l IH]; intros d k; simpl.
  - lia.
  - rewrite IH. unfold count_key at 1. unfold Dict.get_default at 1.
    rewrite get_set. destruct (eq_dec k x) as [->|Hkx].
    + destruct (eq_dec x x); [lia | congruence].
    + destruct (eq_dec x k); [congruence|].
      unfold Dict.get_default. lia.
Qed.

Lemma count_words_keys lowercase texts :
  Dict.keys (count_words lower lowercase texts) =
  firsts (tokens lower lowercase texts).
Proof. rewrite count_words_fold, count_key_keys. reflexivity. Qed.

Lemma count_words_items lowercase texts w c :
  In (w, c) (count_words lower lowercase texts) ->
  c = occurrences w (tokens lower lowercase texts).
Proof.
  intros Hin. apply In_get in Hin.
  - pose proof (count_key_get (tokens lower lowercase texts) Dict.empty w) as Hc.
    rewrite <- count_words_fold in Hc. unfold Dict.get_default at 1 in Hc.
    rewrite Hin in Hc. exact Hc.
  - rewrite count_words_keys. apply firsts_NoDup.
Qed.
End VocabFacts.

(** *** The stable descending sort *)

Lemma insert_desc_perm x l : Permutation (insert_desc x l) (x :: l).
Proof.
  induction l as [|y l IH]; simpl; auto.
  destruct (snd x <? snd y); auto.
  rewrite IH. apply perm_swap.
Qed.

Lemma sorted_by_count_desc_perm l : Permutation (sorted_by_count_desc l) l.
Proof.
  induction l as [|x l IH]; simpl; auto.
  rewrite insert_desc_perm. now constructor.
Qed.

Lemma insert_desc_sorted (R : string * nat -> string * nat -> Prop) x s :
  (forall a b, R a b -> snd b <= snd a) ->
  (forall y, In y s -> snd x < snd y -> R y x) ->
  (forall y, In y s -> snd y <= snd x -> R x y) ->
  StronglySorted R s -> StronglySorted R (insert_desc x s).
Proof.
  intros Hle Hgt Hbefore Hs.
  induction Hs as [|y s Hs IH Hall]; simpl.
  - repeat constructor.
  - destruct (snd x <? snd y) eqn:Hxy.
    + apply Nat.ltb_lt in Hxy. constructor.
      * apply IH; intros; [apply Hgt | apply Hbefore]; simpl; auto.
      * rewrite Forall_forall in *. intros z Hz.
        apply (Permutation_in _ (insert_desc_perm x s)) in Hz.
        destruct Hz as [<-|Hz]; [apply Hgt; simpl; auto | auto].
    + apply Nat.ltb_ge in Hxy. constructor; [constructor; auto|].
      rewrite Forall_forall in *. intros z [<-|Hz].
      * apply Hbefore; simpl; auto.
      * apply Hbefore; simpl; auto.
        specialize (Hle _ _ (Hall z Hz)). lia.
Qed.

Lemma sorted_by_count_desc_stable d :
  NoDup (Dict.keys d) ->
  StronglySorted (ranks_before d) (sorted_by_count_desc d).
Proof.
  induction d as [|x d IH]; simpl; intros Hnd; [constructor|].
  inversion Hnd as [|? ? Hx Hnd']; subst.
  assert (Hkeys : forall y, In y (sorted_by_count_desc d) -> fst y <> fst x).
  { intros y Hy Heq. apply Hx. rewrite <- Heq.
    apply in_map. eapply Permutation_in; [apply sorted_by_count_desc_perm|auto]. }
  apply insert_desc_sorted.
  - unfold ranks_before. intros a b [?|[? _]]; lia.
  - unfold ranks_before. intros; left; auto.
  - unfold ranks_before. intros y Hy Hle. simpl.
    destruct (eq_dec (fst x) (fst x)); [|congruence].
    destruct (eq_dec (fst y) (fst x)); [elim (Hkeys y); auto|]. lia.
  - apply StronglySorted_weaken with (R := ranks_before d); auto.
    unfold ranks_before. intros a b Ha Hb [?|[? ?]]; auto. right. simpl.
    destruct (eq_dec (fst a) (fst x)); [elim (Hkeys a); auto|].
    destruct (eq_dec (fst b) (fst x)); [elim (Hkeys b); auto|]. lia.
Qed.

(** *** The vocabulary table *)

Lemma int_to_word_combine d :
  int_to_word d =
  combine (seq 0 (length (sorted_by_count_desc d)))
          (map fst (sorted_by_count_desc d)).
Proof.
  unfold int_to_word, enumerate, Dict.items.
  generalize (sorted_by_count_desc d) as s. generalize 0 as n.
  intros n s; revert n.
  induction s as [|a s IH]; intros n; simpl; auto. now rewrite IH.
Qed.

Lemma build_vocab_fold (ws : list string) : forall n (v : Dict.t string nat),
  NoDup ws -> (forall w, In w ws -> ~ In w (Dict.keys v)) ->
  fold_left (fun v iw => Dict.set v (snd iw) (fst iw))
            (combine (seq n (length ws)) ws) v =
  v ++ combine ws (seq n (length ws)).
Proof.
  induction ws as [|w ws IH]; intros n v Hnd Hv; simpl.
  - now rewrite app_nil_r.
  - inversion Hnd as [|? ? Hw Hnd']; subst.
    rewrite set_absent by (apply get_None; apply Hv; simpl; auto).
    rewrite IH; auto.
    + now rewrite <- app_assoc.
    + intros w' Hw'. unfold Dict.keys. rewrite map_app, in_app_iff. simpl.
      intros [?|[?|[]]]; [eapply Hv; simpl; eauto | congruence].
Qed.

Lemma build_vocab_sorted d :
  NoDup (Dict.keys d) ->
  build_vocab (int_to_word d) =
  combine (map fst (sorted_by_count_desc d))
          (seq 0 (length (map fst (sorted_by_count_desc d)))).
Proof.
  intros Hnd. unfold build_vocab. rewrite int_to_word_combine.
  rewrite <- (length_map fst (sorted_by_count_desc d)).
  rewrite build_vocab_fold; auto.
  eapply Permutation_NoDup; [|exact Hnd].
  apply Permutation_map. symmetry. apply sorted_by_count_desc_perm.
Qed.

Section SentencesToIntsFacts.
Variable lower : string -> string.
Implicit Types (lowercase : bool) (texts : list (list string)).
Implicit Types (w : string) (vocab : Dict.t string nat).

Lemma lookup_norm vocab lowercase w :
  (if lowercase then vocab_lookup vocab (lower w) else vocab_lookup vocab w)
  = vocab_lookup vocab (norm lower lowercase w).
Proof. now destruct lowercase. Qed.

Lemma ranked_perm lowercase texts :
  Permutation (ranked lower lowercase texts) (firsts (tokens lower lowercase texts)).
Proof.
  unfold ranked. rewrite <- count_words_keys.
  apply Permutation_map, sorted_by_count_desc_perm.
Qed.

Lemma ranked_NoDup lowercase texts : NoDup (ranked lower lowercase texts).
Proof.
  eapply Permutation_NoDup; [symmetry; apply ranked_perm|].
  apply firsts_NoDup.
Qed.

Lemma ranked_In lowercase texts w :
  In w (ranked lower lowercase texts) <-> In w (tokens lower lowercase texts).
Proof.
  rewrite <- (firsts_In (tokens lower lowercase texts)).
  split; apply Permutation_in; [|symmetry]; apply ranked_perm.
Qed.

Lemma vocab_ranked lowercase texts :
  build_vocab (int_to_word (count_words lower lowercase texts)) =
  combine (ranked lower lowercase texts) (seq 0 (length (ranked lower lowercase texts))).
Proof.
  apply build_vocab_sorted. rewrite count_words_keys. apply firsts_NoDup.
Qed.

Lemma token_In lowercase texts sen w :
  In sen texts -> In w sen ->
  In (norm lower lowercase w) (tokens lower lowercase texts).
Proof.
  intros Hs Hw. unfold tokens. apply in_map, in_concat. eauto.
Qed.

(** The mapping pass succeeds on the table the counting pass built, and
    the id of a token is its rank. *)
Lemma map_to_ints_ranked lowercase texts :
  map_to_ints lower
    (build_vocab (int_to_word (count_words lower lowercase texts)))
    lowercase texts =
  Ok (map (map (fun w => index_of (norm lower lowercase w)
                                  (ranked lower lowercase texts))) texts).
Proof.
  unfold map_to_ints. apply mapM_Ok. intros sen Hsen.
  apply mapM_Ok. intros w Hw.
  rewrite lookup_norm. unfold vocab_lookup.
  rewrite vocab_ranked, get_combine_seq; auto.
  apply ranked_In. eapply token_In; eauto.
Qed.

Lemma sentences_to_ints_eq lowercase texts :
  _sentences_to_ints lower texts lowercase =
  Ok (map (map (fun w => index_of (norm lower lowercase w)
                                  (ranked lower lowercase texts))) texts,
      combine (ranked lower lowercase texts)
              (seq 0 (length (ranked lower lowercase texts)))).
Proof.
  unfold _sentences_to_ints. rewrite map_to_ints_ranked. simpl.
  now rewrite vocab_ranked.
Qed.

(** Items of the sorted table carry the number of occurrences of their
    word. *)
Lemma ranked_nth lowercase texts i w :
  nth_error (ranked lower lowercase texts) i = Some w ->
  nth_error (sorted_by_count_desc (count_words lower lowercase texts)) i
  = Some (w, occurrences w (tokens lower lowercase texts)).
Proof.
  unfold ranked. rewrite nth_error_map.
  destruct (nth_error _ i) as [[w' c]|] eqn:Hn; simpl; [|discriminate].
  intros [= ->]. f_equal. f_equal.
  apply count_words_items.
  eapply Permutation_in; [apply sorted_by_count_desc_perm|].
  eapply nth_error_In; eauto.
Qed.

Lemma ranked_lt_outranks lowercase texts i j w1 w2 :
  nth_error (ranked lower lowercase texts) i = Some w1 ->
  nth_error (ranked lower lowercase texts) j = Some w2 ->
  i < j -> outranks (tokens lower lowercase texts) w1 w2.
Proof.
  intros H1 H2 Hij.
  assert (Hin1 : In w1 (tokens lower lowercase texts))
    by (apply ranked_In; eapply nth_error_In; eauto).
  assert (Hin2 : In w2 (tokens lower lowercase texts))
    by (apply ranked_In; eapply nth_error_In; eauto).
  apply ranked_nth in H1, H2.
  pose proof (sorted_by_count_desc_stable
                (count_words lower lowercase texts)) as Hs.
  rewrite count_words_keys in Hs. specialize (Hs (firsts_NoDup _)).
  pose proof (StronglySorted_nth _ _ Hs i j _ _ Hij H1 H2) as Hr.
  unfold ranks_before in Hr. simpl in Hr. rewrite count_words_keys in Hr.
  rewrite firsts_order in Hr by auto. exact Hr.
Qed.
End SentencesToIntsFacts.

(** C1. For every collection of sentences and every value of the
    lowercase flag, [_sentences_to_ints] returns a vocabulary whose ids,
    in table order, are exactly 0, 1, ..., N-1, where N is the number of
    distinct (optionally lower-cased) tokens; its keys are those tokens,
    each once; the token with the smaller id is the one that occurs more
    often or, at equal counts, the one encountered first; so the token
    with id 0 occurs at least as often as any other. *)
Theorem sentences_to_ints_vocab_ranked :
  forall (lower : string -> string) (texts : list (list string))
         (lowercase : bool),
    let toks := tokens lower lowercase texts in
    exists ids vocab,
      _sentences_to_ints lower texts lowercase = Ok (ids, vocab) /\
      Dict.values vocab = seq 0 (length (firsts toks)) /\
      NoDup (Dict.keys vocab) /\
      (forall w, In w (Dict.keys vocab) <-> In w toks) /\
      (forall w1 w2 i j,
          Dict.get vocab w1 = Some i -> Dict.get vocab w2 = Some j ->
          (i < j <-> outranks toks w1 w2)) /\
      (forall w0 w,
          Dict.get vocab w0 = Some 0 ->
          occurrences w toks <= occurrences w0 toks).
Proof.
  intros lower texts lowercase toks.
  rewrite sentences_to_ints_eq.
  set (ws := ranked lower lowercase texts).
  assert (Hid : forall w i,
             Dict.get (combine ws (seq 0 (length ws))) w = Some i ->
             nth_error ws i = Some w).
  { intros w i Hg. pose proof (get_Some_key _ _ _ Hg) as Hin.
    rewrite keys_combine_seq in Hin.
    rewrite get_combine_seq in Hg by auto. inversion Hg; subst.
    now apply nth_error_index_of. }
  assert (Horder : forall w1 w2 i j,
             nth_error ws i = Some w1 -> nth_error ws j = Some w2 ->
             (i < j <-> outranks toks w1 w2)).
  { intros w1 w2 i j H1 H2. split.
    - apply ranked_lt_outranks; auto.
    - intros Hout. destruct (Nat.lt_trichotomy i j) as [|[->|Hji]]; auto.
      + rewrite H1 in H2. inversion H2; subst.
        unfold outranks in Hout. lia.
      + pose proof (ranked_lt_outranks lower lowercase texts _ _ _ _ H2 H1 Hji)
          as Hrev.
        fold toks in Hrev. unfold outranks in *. lia. }
  do 2 eexists. split; [reflexivity|]. repeat split.
  - rewrite values_combine_seq. f_equal.
    apply Permutation_length, ranked_perm.
  - rewrite keys_combine_seq. apply ranked_NoDup.
  - rewrite keys_combine_seq. apply ranked_In.
  - rewrite keys_combine_seq. apply ranked_In.
  - apply Horder; auto.
  - apply Horder; auto.
  - intros w0 w H0. apply Hid in H0.
    destruct (in_dec eq_dec w toks) as [Hin|Hnin].
    + apply ranked_In in Hin. fold ws in Hin.
      pose proof (nth_error_index_of w ws Hin) as Hw.
      destruct (index_of w ws) as [|j] eqn:Hj.
      * rewrite H0 in Hw. inversion Hw; subst. lia.
      * assert (Hlt : 0 < S j) by lia.
        apply (Horder w0 w 0 (S j) H0 Hw) in Hlt.
        unfold outranks in Hlt. lia.
    + unfold occurrences. rewrite (proj1 (count_occ_not_In _ _ _) Hnin). lia.
Qed.

(** C3. If a token processed in the id-mapping pass is absent from the
    vocabulary table it is looked up in (after the pass's own case
    normalization), the pass returns no result: it raises [KeyError], a
    [LookupError], for a key that is absent from the table. *)
Theorem map_to_ints_missing_key :
  forall (lower : string -> string) (vocab : Dict.t string nat)
         (lowercase : bool) (texts : list (list string)),
    (exists sen w, In sen texts /\ In w sen /\
                   Dict.get vocab (norm lower lowercase w) = None) ->
    exists k,
      map_to_ints lower vocab lowercase texts = Raise (KeyError k) /\
      Dict.get vocab k = None /\
      is_LookupError (KeyError k) = true.
Proof.
  intros lower vocab lowercase texts (sen & w & Hsen & Hw & Hnone).
  unfold map_to_ints.
  destruct (mapM _ texts) as [ids|e] eqn:Hm.
  - exfalso.
    destruct (mapM_Ok_inv _ _ _ Hm sen Hsen) as [row Hrow].
    destruct (mapM_Ok_inv _ _ _ Hrow w Hw) as [i Hi].
    rewrite lookup_norm in Hi. unfold vocab_lookup in Hi.
    rewrite Hnone in Hi. discriminate.
  - destruct (mapM_Raise_inv _ _ _ Hm) as (sen' & _ & Hrow).
    destruct (mapM_Raise_inv _ _ _ Hrow) as (w' & _ & Hw').
    rewrite lookup_norm in Hw'. unfold vocab_lookup in Hw'.
    destruct (Dict.get vocab (norm lower lowercase w')) eqn:Hg;
      [discriminate|].
    inversion Hw'; subst. eauto.
Qed.

Local Open Scope string_scope.
(** A table built with the original casing, queried with
    [lowercase=True]. *)
Lemma map_to_ints_missing_key_witness :
  (exists sen w, In sen [["The"; "cat"]] /\ In w sen /\
                 Dict.get [("The", 0); ("cat", 1)] (norm str_lower true w) = None) /\
  exists k,
    map_to_ints str_lower [("The", 0); ("cat", 1)] true [["The"; "cat"]]
    = Raise (KeyError k) /\
    Dict.get [("The", 0); ("cat", 1)] k = None /\
    is_LookupError (KeyError k) = true.
Proof.
  assert (H : exists sen w, In sen [["The"; "cat"]] /\ In w sen /\
                 Dict.get [("The", 0); ("cat", 1)] (norm str_lower true w) = None).
  { exists ["The"; "cat"], "The". simpl. auto. }
  split; [exact H|].
  exact (map_to_ints_missing_key str_lower [("The", 0); ("cat", 1)] true
                                 [["The"; "cat"]] H).
Defined.
Local Close Scope string_scope.

(** C9. For every texts collection and every value of the lowercase
    flag, [_sentences_to_ints] returns a result and raises nothing: the
    key that the mapping pass looks up for a token is the key under which
    the counting pass counted it, that key is in the counting table, and
    its lookup in the vocabulary succeeds. *)
Theorem sentences_to_ints_never_raises :
  forall (lower : string -> string) (texts : list (list string))
         (lowercase : bool),
    (exists ids vocab,
        _sentences_to_ints lower texts lowercase = Ok (ids, vocab)) /\
    (forall sen w, In sen texts -> In w sen ->
        In (norm lower lowercase w)
           (Dict.keys (count_words lower lowercase texts)) /\
        exists i,
          (if lowercase
           then vocab_lookup
                  (build_vocab (int_to_word (count_words lower lowercase texts)))
                  (lower w)
           else vocab_lookup
                  (build_vocab (int_to_word (count_words lower lowercase texts)))
                  w) = Ok i).
Proof.
  intros lower texts lowercase. split.
  - rewrite sentences_to_ints_eq. eauto.
  - intros sen w Hsen Hw.
    pose proof (token_In lower lowercase texts sen w Hsen Hw) as Hin.
    split.
    + rewrite count_words_keys. now apply firsts_In.
    + rewrite lookup_norm. unfold vocab_lookup.
      rewrite vocab_ranked, get_combine_seq by now apply ranked_In.
      eauto.
Qed.

(** ** Corpus parser *)

Lemma heads_length {A} (rows : list (list A)) (hs : list A) :
  heads rows = Some hs -> length hs = length rows.
Proof.
  revert hs. induction rows as [|r rows IH]; simpl; intros hs Hh.
  - now inversion Hh.
  - destruct r as [|x r]; [discriminate|].
    destruct (heads rows) as [hs'|]; [|discriminate].
    inversion Hh; subst. simpl. f_equal. auto.
Qed.

Lemma zip_upto_columns {A} (n : nat) : forall rows : list (list A),
  Forall (fun col => length col = length rows) (zip_upto n rows).
Proof.
  induction n as [|n IH]; intros rows; simpl; [constructor|].
  destruct (heads rows) as [hs|] eqn:Hh; [|constructor].
  constructor.
  - now apply heads_length.
  - specialize (IH (map (@tl A) rows)). now rewrite length_map in IH.
Qed.

(** Every tuple of [zip( *rows)] has one element per row. *)
Lemma zip_star_columns {A} (rows : list (list A)) :
  Forall (fun col => length col = length rows) (zip_star rows).
Proof.
  destruct rows as [|r rows]; [constructor|]. apply zip_upto_columns.
Qed.

Lemma parse_line_fold lines : forall texts cur,
  fst (fold_left parse_line lines (texts, map fields cur)) =
  texts ++ map sentence_of (filter multi_line (closed_blocks cur lines)).
Proof.
  induction lines as [|l lines IH]; intros texts cur; simpl.
  - now rewrite app_nil_r.
  - destruct (is_blank l); simpl.
    + change (@nil (list string)) with (map fields []) at 1.
      rewrite IH. unfold multi_line at 2. rewrite length_map.
      destruct (1 <? length cur); simpl; auto.
      now rewrite <- app_assoc.
    + rewrite <- IH. now rewrite map_app.
Qed.

Lemma parse_entries_closed_blocks lines :
  parse_entries lines =
  map sentence_of (filter multi_line (closed_blocks [] lines)).
Proof.
  unfold parse_entries.
  change (@nil (list string)) with (map fields []) at 1.
  now rewrite parse_line_fold.
Qed.

(** C5. For every input file, every sentence produced by
    [parse_entries] consists of columns of one common length (the number
    of lines of its block, which exceeds one); in particular its token,
    POS and chunk columns have the same length. *)
Theorem parse_entries_equal_columns :
  forall lines : list string,
    Forall (fun s : sentence =>
              (exists n, 1 < n /\ Forall (fun col => length col = n) s) /\
              (forall tok pos chunk,
                  nth_error s 0 = Some tok -> nth_error s 1 = Some pos ->
                  nth_error s 2 = Some chunk ->
                  length tok = length pos /\ length pos = length chunk))
           (parse_entries lines).
Proof.
  intros lines. rewrite parse_entries_closed_blocks.
  apply Forall_forall. intros s Hs.
  apply in_map_iff in Hs. destruct Hs as (b & <- & Hb).
  apply filter_In in Hb. destruct Hb as [_ Hb].
  apply Nat.ltb_lt in Hb.
  pose proof (zip_star_columns (map fields b)) as Hcols.
  rewrite length_map in Hcols. split.
  - exists (length b). split; auto.
  - rewrite Forall_forall in Hcols. intros tok pos chunk H0 H1 H2.
    apply nth_error_In in H0, H1, H2.
    rewrite (Hcols _ H0), (Hcols _ H1), (Hcols _ H2). auto.
Qed.

(** C6. Reading a line appends a sentence to the output exactly when the
    line is blank and the accumulated block has more than one line, and
    the sentence is the transposed block; so the output of
    [parse_entries] is, in order, the transposition of each block of more
    than one line that a blank line closes, and every sentence of the
    output comes from such a block: single-line blocks leave no trace. *)
Theorem parse_entries_blocks :
  forall lines : list string,
    (forall texts block line,
        fst (parse_line (texts, block) line) =
        if is_blank line && (1 <? length block)
        then texts ++ [zip_star block] else texts) /\
    parse_entries lines =
      map sentence_of (filter multi_line (closed_blocks [] lines)) /\
    (forall s, In s (parse_entries lines) ->
       exists b, In b (closed_blocks [] lines) /\ 1 < length b /\
                 s = zip_star (map fields b)).
Proof.
  intros lines. split; [|split].
  - intros texts block line. unfold parse_line.
    destruct (is_blank line); simpl; auto.
  - apply parse_entries_closed_blocks.
  - intros s Hs. rewrite parse_entries_closed_blocks in Hs.
    apply in_map_iff in Hs. destruct Hs as (b & <- & Hb).
    apply filter_In in Hb. destruct Hb as [Hin Hb].
    apply Nat.ltb_lt in Hb. eauto.
Qed.

Local Open Scope string_scope.
Example parse_entries_single_line_dropped :
  parse_entries ["Hi UH"; ""; "He PRP B-NP"; "runs VBZ B-VP"; ""] =
  [[["He"; "runs"]; ["PRP"; "VBZ"]; ["B-NP"; "B-VP"]]].
Proof. reflexivity. Qed.
Local Close Scope string_scope.

(** ** Character feature builder *)

Lemma firsts_from_app {K} `{EqDec K} (l1 l2 : list K) : forall seen,
  firsts_from seen (l1 ++ l2) =
  firsts_from seen l1 ++ firsts_from (seen ++ firsts_from seen l1) l2.
Proof.
  induction l1 as [|x l1 IH]; intros seen; simpl.
  - now rewrite app_nil_r.
  - destruct (in_dec eq_dec x seen); auto.
    simpl. rewrite IH. now rewrite <- app_assoc.
Qed.

Lemma combine_seq_snoc {K} (ks : list K) (c : K) : forall s,
  combine ks (seq s (length ks)) ++ [(c, s + length ks)] =
  combine (ks ++ [c]) (seq s (length (ks ++ [c]))).
Proof.
  induction ks as [|k ks IH]; intros s; simpl.
  - now rewrite Nat.add_0_r.
  - f_equal. rewrite <- IH. do 3 f_equal. lia.
Qed.

Lemma encode_char_st ks c :
  encode_char (st_of ks) c =
  (char_id_of (ks ++ firsts_from ks [c]) c, st_of (ks ++ firsts_from ks [c])).
Proof.
  unfold encode_char, st_of, char_id_of. simpl.
  destruct (in_dec eq_dec c ks) as [Hin|Hnin].
  - rewrite get_combine_seq by auto. rewrite app_nil_r. reflexivity.
  - assert (Hg : Dict.get (combine ks (seq 3 (length ks))) c = None)
      by (apply get_None; now rewrite keys_combine_seq).
    rewrite Hg, set_absent by auto.
    rewrite index_of_app_r by auto. simpl.
    destruct (eq_dec c c); [|congruence].
    rewrite <- (combine_seq_snoc ks c 3), length_app. simpl.
    repeat f_equal; lia.
Qed.

Lemma char_id_of_app ks ext c :
  In c ks -> char_id_of (ks ++ ext) c = char_id_of ks c.
Proof. intros. unfold char_id_of. now rewrite index_of_app_l. Qed.

Lemma in_keys_after {K} `{EqDec K} (ks cs : list K) (c : K) :
  In c cs -> In c (ks ++ firsts_from ks cs).
Proof.
  intros Hc. rewrite in_app_iff, firsts_from_In.
  destruct (in_dec eq_dec c ks); auto.
Qed.

Lemma encode_chars_st cs : forall ks v,
  fold_left (fun acc c =>
               let (i, st') := encode_char (snd acc) c in
               (fst acc ++ [i], st'))
            cs (v, st_of ks) =
  (v ++ map (char_id_of (ks ++ firsts_from ks cs)) cs,
   st_of (ks ++ firsts_from ks cs)).
Proof.
  induction cs as [|c cs IH]; intros ks v.
  - simpl. now rewrite !app_nil_r.
  - assert (E : ks ++ firsts_from ks (c :: cs) =
                (ks ++ firsts_from ks [c]) ++
                firsts_from (ks ++ firsts_from ks [c]) cs).
    { change (c :: cs) with ([c] ++ cs).
      rewrite firsts_from_app. now rewrite app_assoc. }
    rewrite E. cbn [fold_left snd fst]. rewrite encode_char_st, IH.
    rewrite <- app_assoc. cbn [map app].
    rewrite (char_id_of_app (ks ++ firsts_from ks [c]) _ c); auto.
    apply in_keys_after. simpl. auto.
Qed.

Lemma encode_word_st ks w :
  encode_word (st_of ks) w =
  (char_ids (ks ++ firsts_from ks (list_ascii_of_string w)) w,
   st_of (ks ++ firsts_from ks (list_ascii_of_string w))).
Proof.
  unfold encode_word, encode_chars. rewrite encode_chars_st. reflexivity.
Qed.

Lemma char_ids_app ks ext w :
  (forall c, In c (list_ascii_of_string w) -> In c ks) ->
  char_ids (ks ++ ext) w = char_ids ks w.
Proof.
  intros Hall. unfold char_ids. do 2 f_equal.
  apply map_ext_in. intros c Hc. apply char_id_of_app. auto.
Qed.

Lemma encode_words_st s : forall ks acc,
  fold_left (fun acc w =>
               let (v, st') := encode_word (snd acc) w in
               (fst acc ++ [v], st'))
            s (acc, st_of ks) =
  (acc ++ map (char_ids (ks ++ firsts_from ks (sentence_chars s))) s,
   st_of (ks ++ firsts_from ks (sentence_chars s))).
Proof.
  induction s as [|w s IH]; intros ks acc.
  - simpl. now rewrite !app_nil_r.
  - set (cw := list_ascii_of_string w).
    assert (E : ks ++ firsts_from ks (sentence_chars (w :: s)) =
                (ks ++ firsts_from ks cw) ++
                firsts_from (ks ++ firsts_from ks cw) (sentence_chars s)).
    { change (sentence_chars (w :: s)) with (cw ++ sentence_chars s).
      rewrite firsts_from_app. now rewrite app_assoc. }
    rewrite E. cbn [fold_left snd fst]. rewrite encode_word_st, IH.
    fold cw. rewrite <- app_assoc. cbn [map app].
    rewrite (char_ids_app (ks ++ firsts_from ks cw) _ w); auto.
    intros c Hc. now apply in_keys_after.
Qed.

Lemma fit_rows_eq (a : array2) (S W : nat) :
  ncols a = W ->
  fit_rows a S W = Ok (Array2 W (fitted_rows S W (rows2 a))).
Proof.
  intros Hc. unfold fit_rows, fitted_rows, take_rows, np_vstack, np_zeros.
  simpl. rewrite Hc.
  destruct (Z.ltb_spec (Z.of_nat S - Z.of_nat (length (rows2 a))) 0);
    destruct (Nat.ltb_spec S (length (rows2 a))); try lia; auto.
  now rewrite Nat.eqb_refl.
Qed.

Lemma word_rows_app ks ext W s :
  (forall c, In c (sentence_chars s) -> In c ks) ->
  word_rows (ks ++ ext) W s = word_rows ks W s.
Proof.
  intros Hall. unfold word_rows. f_equal.
  apply map_ext_in. intros w Hw. apply char_ids_app.
  intros c Hc. apply Hall. unfold sentence_chars.
  apply in_concat. exists (list_ascii_of_string w). split; auto.
  now apply in_map.
Qed.

Lemma char_loop_st (S W : nat) sentences : forall ks acc,
  char_loop sentences S W (acc, st_of ks) =
  Ok (acc ++
      map (fun s =>
             Array2 W (fitted_rows S W
                         (word_rows (ks ++ firsts_from ks (corpus_chars sentences))
                                    W s)))
          sentences,
      st_of (ks ++ firsts_from ks (corpus_chars sentences))).
Proof.
  induction sentences as [|s rest IH]; intros ks acc.
  - simpl. now rewrite !app_nil_r.
  - set (ks1 := ks ++ firsts_from ks (sentence_chars s)).
    assert (E : ks ++ firsts_from ks (corpus_chars (s :: rest)) =
                ks1 ++ firsts_from ks1 (corpus_chars rest)).
    { change (corpus_chars (s :: rest))
        with (sentence_chars s ++ corpus_chars rest).
      rewrite firsts_from_app. now rewrite app_assoc. }
    rewrite E. cbn [char_loop snd fst]. unfold encode_words.
    rewrite encode_words_st. fold ks1. cbn [app].
    rewrite fit_rows_eq by reflexivity. cbn [bind].
    rewrite IH. rewrite <- app_assoc. cbn [map app rows2 pad_sentences].
    fold (word_rows ks1 W s).
    rewrite (word_rows_app ks1 _ W s); auto.
    intros c Hc. now apply in_keys_after.
Qed.

(** The result of [create_char_features] in closed form. *)
Lemma create_char_features_eq sentences S W :
  create_char_features sentences S W =
  Ok (np_asarray
        (map (fun s =>
                Array2 W (fitted_rows S W
                            (word_rows (firsts (corpus_chars sentences)) W s)))
             sentences),
      combine (firsts (corpus_chars sentences))
              (seq 3 (length (firsts (corpus_chars sentences))))).
Proof.
  unfold create_char_features.
  change (@Dict.empty ascii nat, 3) with (st_of []).
  rewrite char_loop_st. reflexivity.
Qed.

Lemma mats_np_asarray l : mats (np_asarray l) = map rows2 l.
Proof. destruct l; reflexivity. Qed.

Lemma length_pad_row n l : length (pad_row n l) = n.
Proof.
  unfold pad_row. rewrite length_app, repeat_length, length_skipn. lia.
Qed.

Lemma fitted_rows_length S W rows : length (fitted_rows S W rows) = S.
Proof.
  unfold fitted_rows. destruct (Nat.ltb_spec S (length rows)).
  - rewrite length_firstn. lia.
  - rewrite length_app, repeat_length. lia.
Qed.

Lemma fitted_rows_width S W rows :
  Forall (fun r => length r = W) rows ->
  Forall (fun r => length r = W) (fitted_rows S W rows).
Proof.
  intros Hr. unfold fitted_rows. destruct (S <? length rows).
  - rewrite Forall_forall in *. intros r Hin. apply Hr.
    eapply In_nth_error in Hin. destruct Hin as [n Hn].
    rewrite nth_error_firstn in Hn.
    destruct (n <? S); [|discriminate]. eapply nth_error_In; eauto.
  - apply Forall_app. split; auto.
    apply Forall_forall. intros r Hin. apply repeat_spec in Hin. subst.
    apply repeat_length.
Qed.

Lemma word_rows_width ks W s :
  Forall (fun r => length r = W) (word_rows ks W s).
Proof.
  unfold word_rows. apply Forall_forall. intros r Hin.
  apply in_map_iff in Hin. destruct Hin as (v & <- & _).
  apply length_pad_row.
Qed.

(** Every array that [create_char_features] collects has the shape
    [(S, W)]. *)
Lemma char_rows_shape ks S W s :
  shape2 (Array2 W (fitted_rows S W (word_rows ks W s))) = [S; W].
Proof. unfold shape2. simpl. now rewrite fitted_rows_length. Qed.

Lemma char_dict_get_default ks c :
  In c ks ->
  Dict.get_default (combine ks (seq 3 (length ks))) c 0 = char_id_of ks c.
Proof.
  intros Hin. unfold Dict.get_default. now rewrite get_combine_seq.
Qed.

Lemma word_vector_char_ids ks w :
  (forall c, In c (list_ascii_of_string w) -> In c ks) ->
  word_vector (combine ks (seq 3 (length ks))) w = char_ids ks w.
Proof.
  intros Hall. unfold word_vector, char_ids. do 2 f_equal.
  apply map_ext_in. intros c Hc. apply char_dict_get_default. auto.
Qed.

Lemma corpus_chars_In sentences s w c :
  In s sentences -> In w s -> In c (list_ascii_of_string w) ->
  In c (corpus_chars sentences).
Proof.
  intros Hs Hw Hc. unfold corpus_chars. apply in_concat.
  exists (sentence_chars s). split; [now apply in_map|].
  unfold sentence_chars. apply in_concat.
  exists (list_ascii_of_string w). split; [now apply in_map|auto].
Qed.

(** The dictionary [create_char_features] leaves and the rows of the
    array it returns, in terms of that dictionary. *)
Lemma create_char_features_rows sentences S W :
  exists arr,
    create_char_features sentences S W =
      Ok (arr, combine (firsts (corpus_chars sentences))
                       (seq 3 (length (firsts (corpus_chars sentences))))) /\
    mats arr =
      map (fun s =>
             fitted_rows S W
               (map (pad_row W)
                    (map (word_vector
                            (combine (firsts (corpus_chars sentences))
                                     (seq 3 (length (firsts (corpus_chars sentences))))))
                         s)))
          sentences.
Proof.
  rewrite create_char_features_eq. eexists. split; [reflexivity|].
  rewrite mats_np_asarray, map_map. cbn [rows2].
  apply map_ext_in. intros s Hs. f_equal. unfold word_rows. f_equal.
  apply map_ext_in. intros w Hw. symmetry. apply word_vector_char_ids.
  intros c Hc. rewrite firsts_In. eapply corpus_chars_In; eauto.
Qed.

(** C7. [create_char_features] numbers the characters from 3 upwards in
    the order in which its single pass over the corpus first meets them,
    whatever their frequency: the dictionary it leaves is the list of
    first encounters paired with 3, 4, 5, ...; no character gets 0, 1 or
    2; and each row handed to the per-word padding is the vector
    [1] + character ids + [2] of a word. *)
Theorem create_char_features_char_ids :
  forall (sentences : list (list string)) (S W : nat),
    let met := firsts (corpus_chars sentences) in
    exists arr char_dict,
      create_char_features sentences S W = Ok (arr, char_dict) /\
      char_dict = combine met (seq 3 (length met)) /\
      (forall c i, Dict.get char_dict c = Some i ->
                   3 <= i /\ i = 3 + index_of c met) /\
      (forall c1 c2 i1 i2,
          Dict.get char_dict c1 = Some i1 ->
          Dict.get char_dict c2 = Some i2 ->
          (i1 < i2 <->
           index_of c1 (corpus_chars sentences)
           < index_of c2 (corpus_chars sentences))) /\
      mats arr =
        map (fun s => fitted_rows S W
                        (map (pad_row W) (map (word_vector char_dict) s)))
            sentences.
Proof.
  intros sentences S W met.
  destruct (create_char_features_rows sentences S W) as (arr & Hrun & Hmats).
  fold met in Hrun, Hmats.
  assert (Hid : forall c i,
             Dict.get (combine met (seq 3 (length met))) c = Some i ->
             In c met /\ i = 3 + index_of c met).
  { intros c i Hg. pose proof (get_Some_key _ _ _ Hg) as Hin.
    rewrite keys_combine_seq in Hin. split; auto.
    rewrite get_combine_seq in Hg by auto. now inversion Hg. }
  exists arr, (combine met (seq 3 (length met))).
  split; [exact Hrun|]. split; [reflexivity|].
  split; [|split].
  - intros c i Hg. apply Hid in Hg. destruct Hg as [_ ->]. split; [lia|auto].
  - intros c1 c2 i1 i2 H1 H2.
    apply Hid in H1, H2. destruct H1 as [Hin1 ->], H2 as [Hin2 ->].
    unfold met in *. rewrite firsts_In in Hin1, Hin2.
    rewrite <- (firsts_order (corpus_chars sentences) c1 c2) by auto. lia.
  - exact Hmats.
Qed.

Local Open Scope string_scope.
(** First encounter, not frequency, decides the id: "b" is the most
    frequent character here and still comes second. *)
Example char_ids_not_frequency_ranked :
  create_char_features [["abb"; "b"]] 2 5
  = Ok (NdArray [1; 2; 5] [[[1; 3; 4; 4; 2]; [0; 0; 1; 4; 2]]],
        [("a"%char, 3); ("b"%char, 4)]).
Proof. reflexivity. Qed.
Local Close Scope string_scope.

(** C8 as the claim states it fails on the empty corpus: [np.asarray] of
    an empty list is the 1-D array of shape [(0,)], not an array of shape
    [(0, 50, 20)]. *)
Lemma create_char_features_shape_counterexample :
  ~ (forall (sentences : list (list string)) (S W : nat),
        exists arr char_dict,
          create_char_features sentences S W = Ok (arr, char_dict) /\
          shape arr = [length sentences; S; W]).
Proof.
  intros Hclaim. destruct (Hclaim [] 50 20) as (arr & d & Hrun & Hshape).
  vm_compute in Hrun. inversion Hrun; subst. discriminate Hshape.
Qed.

(** C8, amended. For every corpus with at least one sentence, whatever
    the lengths of its sentences and words, [create_char_features]
    returns an array of shape exactly
    [(num_sentences, sentence_length, word_length)]: one matrix per
    sentence, each of [sentence_length] rows of [word_length] cells.  For
    the corpus without sentences the array is the empty 1-D array. *)
Theorem create_char_features_shape :
  forall (sentences : list (list string)) (S W : nat),
    exists arr char_dict,
      create_char_features sentences S W = Ok (arr, char_dict) /\
      shape arr = match sentences with
                  | [] => [0]
                  | _ :: _ => [length sentences; S; W]
                  end /\
      length (mats arr) = length sentences /\
      Forall (fun m => length m = S /\ Forall (fun r => length r = W) m)
             (mats arr).
Proof.
  intros sentences S W. rewrite create_char_features_eq.
  do 2 eexists. split; [reflexivity|]. split; [|split].
  - destruct sentences as [|s rest]; [reflexivity|].
    cbn [map np_asarray shape]. rewrite char_rows_shape.
    cbn [length]. now rewrite length_map.
  - now rewrite mats_np_asarray, !length_map.
  - rewrite mats_np_asarray, map_map. apply Forall_forall.
    intros m Hm. apply in_map_iff in Hm. destruct Hm as (s & <- & _).
    cbn [rows2]. split.
    + apply fitted_rows_length.
    + apply fitted_rows_width, word_rows_width.
Qed.

(** C2 as the claim states it fails: of a sentence of two words cut to
    one row, the row kept is that of the first word, not of the last. *)
Lemma create_char_features_truncation_counterexample :
  ~ (forall (sentences : list (list string)) (S W : nat) (i : nat)
            (s : list string),
        nth_error sentences i = Some s -> S < length s ->
        exists arr char_dict,
          create_char_features sentences S W = Ok (arr, char_dict) /\
          nth_error (mats arr) i =
            Some (skipn (length s - S)
                        (map (pad_row W) (map (word_vector char_dict) s)))).
Proof.
  intros Hclaim.
  destruct (Hclaim [["a"; "b"]%string] 1 3 0 ["a"; "b"]%string eq_refl)
    as (arr & d & Hrun & Hrow); [simpl; lia|].
  vm_compute in Hrun. inversion Hrun; subst. vm_compute in Hrow.
  discriminate Hrow.
Qed.

(** C2, amended. For every sentence with more words than the target
    sentence length, [create_char_features] cuts the stacked per-word
    character matrix at the back: the output keeps the rows of the first
    [sentence_length] words and drops those of the trailing words. *)
Theorem create_char_features_keeps_first_rows :
  forall (sentences : list (list string)) (S W : nat) (i : nat)
         (s : list string),
    nth_error sentences i = Some s -> S < length s ->
    exists arr char_dict,
      create_char_features sentences S W = Ok (arr, char_dict) /\
      nth_error (mats arr) i =
        Some (firstn S (map (pad_row W) (map (word_vector char_dict) s))) /\
      nth_error (mats arr) i =
        Some (map (pad_row W) (map (word_vector char_dict) (firstn S s))).
Proof.
  intros sentences S W i s Hs Hlen.
  destruct (create_char_features_rows sentences S W) as (arr & Hrun & Hmats).
  set (d := combine (firsts (corpus_chars sentences))
                    (seq 3 (length (firsts (corpus_chars sentences))))) in *.
  exists arr, d. split; auto.
  assert (Hrow : nth_error (mats arr) i =
                 Some (firstn S (map (pad_row W) (map (word_vector d) s)))).
  { rewrite Hmats, nth_error_map, Hs. cbn [option_map]. f_equal.
    unfold fitted_rows. rewrite !length_map.
    apply Nat.ltb_lt in Hlen. now rewrite Hlen. }
  split; auto. rewrite Hrow. now rewrite <- !firstn_map.
Qed.

Lemma create_char_features_keeps_first_rows_witness :
  nth_error [["ab"; "ba"; "c"]%string] 0 = Some ["ab"; "ba"; "c"]%string /\
  2 < length ["ab"; "ba"; "c"]%string /\
  exists arr char_dict,
    create_char_features [["ab"; "ba"; "c"]%string] 2 4 = Ok (arr, char_dict) /\
    nth_error (mats arr) 0 =
      Some (firstn 2 (map (pad_row 4)
                          (map (word_vector char_dict) ["ab"; "ba"; "c"]%string))) /\
    nth_error (mats arr) 0 =
      Some (map (pad_row 4)
                (map (word_vector char_dict) (firstn 2 ["ab"; "ba"; "c"]%string))).
Proof.
  assert (H1 : nth_error [["ab"; "ba"; "c"]%string] 0
               = Some ["ab"; "ba"; "c"]%string) by reflexivity.
  assert (H2 : 2 < length ["ab"; "ba"; "c"]%string) by (simpl; lia).
  split; [exact H1|]. split; [exact H2|].
  exact (create_char_features_keeps_first_rows
           [["ab"; "ba"; "c"]%string] 2 4 0 ["ab"; "ba"; "c"]%string H1 H2).
Defined.

(** ** Feature assembler *)

Lemma heads_nth {A} (d : A) (rows : list (list A)) (hs : list A) :
  heads rows = Some hs -> hs = map (fun r => nth 0 r d) rows.
Proof.
  revert hs. induction rows as [|r rows IH]; simpl; intros hs Hh.
  - now inversion Hh.
  - destruct r as [|a r]; [discriminate|].
    destruct (heads rows) as [hs'|]; [|discriminate].
    inversion Hh; subst. simpl. f_equal. auto.
Qed.

Lemma zip_upto_nth {A} (d : A) (n : nat) : forall (rows : list (list A)) k c,
  nth_error (zip_upto n rows) k = Some c ->
  c = map (fun r => nth k r d) rows.
Proof.
  induction n as [|n IH]; intros rows k c Hn; simpl in Hn.
  - destruct k; discriminate.
  - destruct (heads rows) as [hs|] eqn:Hh; [|destruct k; discriminate].
    destruct k as [|k]; simpl in Hn.
    + inversion Hn; subst. now apply heads_nth.
    + apply IH in Hn. rewrite Hn, map_map.
      apply map_ext. intros [|a r]; destruct k; reflexivity.
Qed.

(** The k-th tuple of [zip( *rows)] holds the k-th element of each row. *)
Lemma zip_star_nth {A} (d : A) (rows : list (list A)) k c :
  nth_error (zip_star rows) k = Some c -> c = map (fun r => nth k r d) rows.
Proof.
  destruct rows as [|r rows].
  - destruct k; discriminate.
  - unfold zip_star. apply zip_upto_nth.
Qed.

Lemma column_eq k (set : list sentence) c :
  column k set = Ok c -> c = map (col k) set.
Proof.
  unfold column. destruct (nth_error (zip_star set) k) eqn:Hn; [|discriminate].
  intros [= <-]. now apply zip_star_nth.
Qed.

Lemma sentences_to_ints_ids lower texts lowercase ids vocab :
  _sentences_to_ints lower texts lowercase = Ok (ids, vocab) ->
  ids = map (ids_of lower lowercase vocab) texts.
Proof.
  rewrite sentences_to_ints_eq. intros [= <- <-].
  apply map_ext_in. intros sen Hsen. unfold ids_of.
  apply map_ext_in. intros w Hw. unfold Dict.get_default.
  rewrite get_combine_seq; auto.
  apply ranked_In. eapply token_In; eauto.
Qed.

Lemma mapM_total {A B} (f : A -> result B) (d : B) (l : list A) (bs : list B) :
  mapM f l = Ok bs ->
  bs = map (fun a => match f a with Ok b => b | Raise _ => d end) l.
Proof.
  revert bs. induction l as [|a l IH]; simpl; intros bs Hm.
  - now inversion Hm.
  - destruct (f a) as [b|e]; simpl in Hm; [|discriminate].
    destruct (mapM f l) as [bs'|e]; simpl in Hm; [|discriminate].
    inversion Hm; subst. f_equal. auto.
Qed.

(** Cutting the concatenation of rows of [k] cells back into rows of
    [k]. *)
Lemma rows_of_concat {A} (k : nat) (rs : list (list A)) :
  k <> 0 -> Forall (fun r => length r = k) rs ->
  length (concat rs) = length rs * k /\
  map (fun i => firstn k (skipn (i * k) (concat rs))) (seq 0 (length rs)) = rs.
Proof.
  intros Hk. induction 1 as [|r rs Hr Hrs [IHlen IH]]; simpl.
  - auto.
  - split.
    + rewrite length_app. lia.
    + f_equal.
      * rewrite firstn_app, Hr, Nat.sub_diag, firstn_all2 by lia.
        simpl. apply app_nil_r.
      * rewrite <- seq_shift, map_map. rewrite <- IH at 2.
        apply map_ext. intros i.
        replace (S i * k) with (length r + i * k) by lia.
        now rewrite skipn_app, skipn_all2, Nat.add_comm, Nat.add_sub by lia.
Qed.

Lemma reshape_rows_mats (a : ndarray) (k : nat) (rs : list (list nat)) :
  reshape_rows a k = Ok rs ->
  Forall (fun m => length (concat m) = k) (mats a) ->
  rs = map (@concat nat) (mats a).
Proof.
  unfold reshape_rows.
  destruct (k =? 0) eqn:Hk; simpl; [discriminate|].
  apply Nat.eqb_neq in Hk.
  destruct (length (flat a) mod k =? 0); simpl; [|discriminate].
  intros [= <-] Hm.
  assert (Hrows : Forall (fun r => length r = k) (map (@concat nat) (mats a))).
  { apply Forall_forall. intros r Hr. apply in_map_iff in Hr.
    destruct Hr as (m & <- & Hin). rewrite Forall_forall in Hm. auto. }
  destruct (rows_of_concat k _ Hk Hrows) as [Hlen Heq].
  unfold flat. rewrite Hlen, Nat.div_mul by auto. exact Heq.
Qed.

Section GenIteratorsFacts.
Variable lower : string -> string.
Variable vec : Type.
Variable zeros : nat -> vec.
Variable load_word_embeddings : option string -> Dict.t string vec * nat.
Implicit Types (self : CONLL2000) (s : sentence) (out : outputs vec).

Lemma token_iterators_rows self n (corpus : list sentence) vocab yy ysz r :
  token_iterators lower zeros load_word_embeddings self n
                  (map (token_row lower self vocab) corpus) vocab yy ysz = Ok r ->
  rows_of (snd (fst r)) = firstn n (map (first_row lower zeros load_word_embeddings self vocab) corpus) /\
  rows_of (snd r) = skipn n (map (first_row lower zeros load_word_embeddings self vocab) corpus) /\
  y (snd (fst r)) = Some (firstn n yy) /\ y (snd r) = Some (skipn n yy).
Proof.
  unfold token_iterators, rows_of, first_row, w2v_vec.
  destruct (use_w2v self).
  - destruct (load_word_embeddings (w2v_path self)) as [d emb]. cbn [fst snd].
    destruct (w2v_rows _ _ _ _ _ _) as [R|e] eqn:HR; cbn [bind];
      [|discriminate].
    intros [= <-]. cbn [fst snd x y feature_rows].
    assert (HR' : R = map (map (fun w =>
                     match w2v_cell lower zeros (invert_vocab vocab) d emb w
                     with Ok v => v | Raise _ => zeros emb end))
                   (map (token_row lower self vocab) corpus)).
    { unfold w2v_rows in HR.
      rewrite (mapM_total _ [] _ _ HR).
      apply map_ext_in. intros r Hr.
      destruct (mapM_Ok_inv _ _ _ HR r Hr) as [vs Hvs].
      rewrite Hvs. now apply mapM_total. }
    rewrite HR'. rewrite <- firstn_map, <- skipn_map, !map_map. auto.
  - intros [= <-]. cbn [fst snd x y feature_rows].
    rewrite <- firstn_map, <- skipn_map, !map_map. auto.
Qed.

Lemma pos_iterators_rows self n (train test : list sentence) yy r :
  pos_iterators lower self n train test yy = Ok r ->
  map (@rows_of vec) (snd (fst r)) =
    map (fun f => firstn n (map f (train ++ test)))
        (pos_functions lower self (fst (fst r))) /\
  map (@rows_of vec) (snd r) =
    map (fun f => skipn n (map f (train ++ test)))
        (pos_functions lower self (fst (fst r))).
Proof.
  unfold pos_iterators, rows_of.
  destruct (use_pos self); [|intros [= <-]; auto].
  destruct (column 1 train) as [tr1|] eqn:H1; cbn [bind]; [|discriminate].
  destruct (column 1 test) as [te1|] eqn:H2; cbn [bind]; [|discriminate].
  destruct (_sentences_to_ints _ _ _) as [[P pv]|] eqn:HP; cbn [bind];
    [|discriminate].
  intros [= <-]. cbn [fst snd map pos_functions x unlabelled feature_rows
                      get_paddedXY_sequence].
  apply column_eq in H1, H2. subst tr1 te1. rewrite <- map_app in HP.
  apply sentences_to_ints_ids in HP. subst P.
  unfold pos_row. rewrite <- firstn_map, <- skipn_map, !map_map. auto.
Qed.

Lemma concat_length_rows (S W : nat) (m : list (list nat)) :
  length m = S -> Forall (fun r => length r = W) m ->
  length (concat m) = S * W.
Proof.
  intros <-. induction 1 as [|r m Hr Hm IH]; simpl; auto.
  rewrite length_app. lia.
Qed.

Lemma char_iterators_rows self n (corpus : list sentence) r :
  char_iterators self n (map (col 0) corpus) = Ok r ->
  map (@rows_of vec) (snd (fst r)) =
    map (fun f => firstn n (map f corpus))
        (char_functions self (fst (fst r))) /\
  map (@rows_of vec) (snd r) =
    map (fun f => skipn n (map f corpus))
        (char_functions self (fst (fst r))).
Proof.
  unfold char_iterators, rows_of.
  destruct (use_chars self); [|intros [= <-]; auto].
  destruct (create_char_features_rows (map (col 0) corpus)
              (sentence_length self) (chars_len self)) as (arr & -> & Hm).
  cbn [bind fst snd].
  destruct (reshape_rows _ _) as [rs|] eqn:Hrs; cbn [bind]; [|discriminate].
  intros [= <-]. cbn [fst snd map char_functions x unlabelled feature_rows].
  apply reshape_rows_mats in Hrs.
  - subst rs. rewrite Hm.
    unfold char_row. rewrite <- firstn_map, <- skipn_map, !map_map. auto.
  - rewrite Hm. apply Forall_forall. intros m Hin.
    apply in_map_iff in Hin. destruct Hin as (s & <- & _).
    apply concat_length_rows.
    + apply fitted_rows_length.
    + apply fitted_rows_width. apply Forall_forall. intros rr Hrr.
      apply in_map_iff in Hrr. destruct Hrr as (v & <- & _).
      apply length_pad_row.
Qed.

Lemma iterators_wrap (a b : TaggedTextSequence vec) ra rb d :
  length ra = length rb ->
  iterators (if 1 <? length (a :: ra)
             then MultiSequenceDataIterator (b :: rb)
             else Single (hd d (b :: rb))) = b :: rb.
Proof.
  destruct ra, rb; simpl; try discriminate; auto.
Qed.

(** What a successful run of [gen_iterators] went through. *)
Lemma gen_iterators_inv self (train_set test_set : list sentence) out :
  gen_iterators lower zeros load_word_embeddings self train_set test_set
  = Ok out ->
  let n := length train_set in
  let corpus := train_set ++ test_set in
  let T := sentence_length self in
  exists X Y tok pos chars,
    _sentences_to_ints lower (map (col 0) corpus) false
      = Ok (X, vocabs_token out) /\
    _sentences_to_ints lower (map (col 2) corpus) false
      = Ok (Y, y_vocab out) /\
    token_iterators lower zeros load_word_embeddings self n
      (map (pad_row T) X) (vocabs_token out) (map (pad_row T) Y)
      (length (y_vocab out) + 1) = Ok tok /\
    pos_iterators lower self n train_set test_set (map (pad_row T) Y)
      = Ok pos /\
    char_iterators self n (map (col 0) corpus) = Ok chars /\
    vocabs_pos out = fst (fst pos) /\
    vocabs_char_rnn out = fst (fst chars) /\
    data_train out =
      (if 1 <? length (snd (fst tok) :: snd (fst pos) ++ snd (fst chars))
       then MultiSequenceDataIterator
              (snd (fst tok) :: snd (fst pos) ++ snd (fst chars))
       else Single (hd (snd (fst tok))
              (snd (fst tok) :: snd (fst pos) ++ snd (fst chars)))) /\
    data_test out =
      (if 1 <? length (snd (fst tok) :: snd (fst pos) ++ snd (fst chars))
       then MultiSequenceDataIterator (snd tok :: snd pos ++ snd chars)
       else Single (hd (snd tok) (snd tok :: snd pos ++ snd chars))).
Proof.
  intros H. intros n corpus T. unfold gen_iterators in H.
  destruct (column 0 train_set) as [tr0|] eqn:H0; cbn [bind] in H;
    [|discriminate].
  destruct (column 0 test_set) as [te0|] eqn:H0'; cbn [bind] in H;
    [|discriminate].
  destruct (_sentences_to_ints lower (tr0 ++ te0) false) as [[X Xv]|] eqn:HX;
    cbn [bind fst snd] in H; [|discriminate].
  destruct (column 2 train_set) as [tr2|] eqn:H2; cbn [bind] in H;
    [|discriminate].
  destruct (column 2 test_set) as [te2|] eqn:H2'; cbn [bind] in H;
    [|discriminate].
  destruct (_sentences_to_ints lower (tr2 ++ te2) false) as [[Y Yv]|] eqn:HY;
    cbn [bind fst snd get_paddedXY_sequence] in H; [|discriminate].
  destruct (token_iterators _ _ _ _ _ _ _ _ _) as [tok|] eqn:Htok;
    cbn [bind] in H; [|discriminate].
  destruct (pos_iterators _ _ _ _ _ _) as [pos|] eqn:Hpos;
    cbn [bind] in H; [|discriminate].
  destruct (char_iterators _ _ _) as [chars|] eqn:Hchars;
    cbn [bind] in H; [|discriminate].
  apply column_eq in H0, H0', H2, H2'. subst tr0 te0 tr2 te2.
  rewrite <- map_app in HX, HY, Hchars.
  inversion H; subst out; clear H.
  exists X, Y, tok, pos, chars. cbn. repeat split; auto.
Qed.

Lemma firstn_map_app {A B} (f : A -> B) (l1 l2 : list A) :
  firstn (length l1) (map f (l1 ++ l2)) = map f l1.
Proof.
  rewrite map_app, firstn_app, length_map, Nat.sub_diag. simpl.
  rewrite app_nil_r. apply firstn_all2. now rewrite length_map.
Qed.

Lemma skipn_map_app {A B} (f : A -> B) (l1 l2 : list A) :
  skipn (length l1) (map f (l1 ++ l2)) = map f l2.
Proof.
  rewrite map_app, skipn_app, length_map, Nat.sub_diag. simpl.
  rewrite skipn_all2; [reflexivity | now rewrite length_map].
Qed.

Lemma pos_iterators_count self n (train test : list sentence) yy r :
  @pos_iterators lower vec self n train test yy = Ok r ->
  length (snd (fst r)) = if use_pos self then 1 else 0.
Proof.
  unfold pos_iterators. destruct (use_pos self); [|intros [= <-]; auto].
  destruct (column 1 train); cbn [bind]; [|discriminate].
  destruct (column 1 test); cbn [bind]; [|discriminate].
  destruct (_sentences_to_ints _ _ _); cbn [bind]; [|discriminate].
  intros [= <-]. reflexivity.
Qed.

Lemma char_iterators_count self n (sents : list (list string)) r :
  @char_iterators vec self n sents = Ok r ->
  length (snd (fst r)) = if use_chars self then 1 else 0.
Proof.
  unfold char_iterators. destruct (use_chars self); [|intros [= <-]; auto].
  destruct (create_char_features _ _ _); cbn [bind]; [|discriminate].
  destruct (reshape_rows _ _); cbn [bind]; [|discriminate].
  intros [= <-]. reflexivity.
Qed.

(** One iterator per requested stream. *)
Lemma gen_iterators_count self (train_set test_set : list sentence) out :
  gen_iterators lower zeros load_word_embeddings self train_set test_set
  = Ok out ->
  length (iterators (data_train out)) =
  1 + (if use_pos self then 1 else 0) + (if use_chars self then 1 else 0).
Proof.
  intros H.
  destruct (gen_iterators_inv _ _ _ _ H)
    as (X & Y & tok & pos & chars & _ & _ & _ & Hpos & Hchars & _ & _ & Htr & _).
  rewrite Htr, iterators_wrap by reflexivity.
  cbn [length]. rewrite length_app.
  rewrite (pos_iterators_count _ _ _ _ _ _ Hpos).
  rewrite (char_iterators_count _ _ _ _ Hchars). lia.
Qed.

(** The rows and labels of the iterators of a successful run. *)
Lemma gen_iterators_streams self (train_set test_set : list sentence) out :
  gen_iterators lower zeros load_word_embeddings self train_set test_set
  = Ok out ->
  let n := length train_set in
  let corpus := train_set ++ test_set in
  exists it_tr rest_tr it_te rest_te,
    iterators (data_train out) = it_tr :: rest_tr /\
    iterators (data_test out) = it_te :: rest_te /\
    map (@rows_of vec) (it_tr :: rest_tr) =
      map (fun f => firstn n (map f corpus)) (row_functions lower zeros load_word_embeddings self out) /\
    map (@rows_of vec) (it_te :: rest_te) =
      map (fun f => skipn n (map f corpus)) (row_functions lower zeros load_word_embeddings self out) /\
    y it_tr = Some (firstn n (map (label_row lower self (y_vocab out)) corpus)) /\
    y it_te = Some (skipn n (map (label_row lower self (y_vocab out)) corpus)).
Proof.
  intros H. intros n corpus.
  destruct (gen_iterators_inv _ _ _ _ H)
    as (X & Y & tok & pos & chars & HX & HY & Htok & Hpos & Hchars
        & Hvp & Hvc & Htr & Hte).
  fold n corpus in HX, HY, Htok, Hpos, Hchars.
  rewrite (sentences_to_ints_ids _ _ _ _ _ HX) in Htok.
  rewrite (sentences_to_ints_ids _ _ _ _ _ HY) in Htok.
  rewrite !map_map in Htok.
  apply token_iterators_rows in Htok.
  destruct Htok as (Ht1 & Ht2 & Hy1 & Hy2).
  apply pos_iterators_rows in Hpos. destruct Hpos as [Hp1 Hp2].
  apply char_iterators_rows in Hchars. destruct Hchars as [Hc1 Hc2].
  fold corpus in Hp1, Hp2.
  assert (Hlen : length (snd (fst pos) ++ snd (fst chars)) =
                 length (snd pos ++ snd chars)).
  { rewrite !length_app.
    rewrite <- (length_map (@rows_of vec) (snd (fst pos))), Hp1.
    rewrite <- (length_map (@rows_of vec) (snd pos)), Hp2.
    rewrite <- (length_map (@rows_of vec) (snd (fst chars))), Hc1.
    rewrite <- (length_map (@rows_of vec) (snd chars)), Hc2.
    now rewrite !length_map. }
  exists (snd (fst tok)), (snd (fst pos) ++ snd (fst chars)),
         (snd tok), (snd pos ++ snd chars).
  split; [|split; [|split; [|split; [|split]]]].
  - rewrite Htr. now apply iterators_wrap.
  - rewrite Hte. now apply iterators_wrap.
  - unfold row_functions. rewrite Hvp, Hvc. cbn [map app].
    rewrite !map_app. now rewrite Ht1, Hp1, Hc1.
  - unfold row_functions. rewrite Hvp, Hvc. cbn [map app].
    rewrite !map_app. now rewrite Ht2, Hp2, Hc2.
  - rewrite Hy1. reflexivity.
  - rewrite Hy2. reflexivity.
Qed.

(** C4. In a run of [gen_iterators] that returns, the token and label
    vocabularies are those of [_sentences_to_ints] on the train
    sentences followed by the test sentences; every feature stream
    (token ids or their vectors, POS, characters) is an array over that
    concatenation whose first [num_train_samples] rows go to the train
    iterator and whose remaining rows go to the test iterator; and row
    [i] of every train (test) stream is computed from train (test)
    sentence [i].  There is one stream for the tokens and one more for
    each of [use_pos] and [use_chars]; the labels are split in the same
    way. *)
Theorem gen_iterators_partition :
  forall self (train_set test_set : list sentence) out,
    gen_iterators lower zeros load_word_embeddings self train_set test_set
    = Ok out ->
    let n := length train_set in
    let corpus := train_set ++ test_set in
    let fs := row_functions lower zeros load_word_embeddings self out in
    (exists X, _sentences_to_ints lower (map (col 0) corpus) false
               = Ok (X, vocabs_token out)) /\
    (exists Y, _sentences_to_ints lower (map (col 2) corpus) false
               = Ok (Y, y_vocab out)) /\
    length (iterators (data_train out)) =
      1 + (if use_pos self then 1 else 0) + (if use_chars self then 1 else 0) /\
    map (@rows_of vec) (iterators (data_train out)) =
      map (fun f => firstn n (map f corpus)) fs /\
    map (@rows_of vec) (iterators (data_test out)) =
      map (fun f => skipn n (map f corpus)) fs /\
    map (@rows_of vec) (iterators (data_train out)) =
      map (fun f => map f train_set) fs /\
    map (@rows_of vec) (iterators (data_test out)) =
      map (fun f => map f test_set) fs /\
    option_map y (hd_error (iterators (data_train out))) =
      Some (Some (map (label_row lower self (y_vocab out)) train_set)) /\
    option_map y (hd_error (iterators (data_test out))) =
      Some (Some (map (label_row lower self (y_vocab out)) test_set)).
Proof.
  intros self train_set test_set out H. intros n corpus fs.
  destruct (gen_iterators_inv _ _ _ _ H)
    as (X & Y & _ & _ & _ & HX & HY & _).
  destruct (gen_iterators_streams _ _ _ _ H)
    as (it_tr & rest_tr & it_te & rest_te & Htr & Hte & Hrtr & Hrte
        & Hytr & Hyte).
  fold n corpus fs in Hrtr, Hrte, Hytr, Hyte.
  pose proof (gen_iterators_count _ _ _ _ H) as Hcount.
  rewrite Htr in Hcount |- *. rewrite Hte, Hrtr, Hrte.
  cbn [hd_error option_map].
  rewrite Hytr, Hyte. unfold n, corpus.
  rewrite firstn_map_app, skipn_map_app.
  repeat split; eauto.
  - apply map_ext. intros f. apply firstn_map_app.
  - apply map_ext. intros f. apply skipn_map_app.
Qed.

(** C10. Changing [vocab_size] changes nothing that [gen_iterators]
    produces, and the token vocabulary of a run holds every distinct
    token of the train and test sentences, however many there are. *)
Theorem gen_iterators_ignores_vocab_size :
  forall self (v : nat) (train_set test_set : list sentence),
    gen_iterators lower zeros load_word_embeddings
                  (with_vocab_size self v) train_set test_set
    = gen_iterators lower zeros load_word_embeddings self train_set test_set
    /\
    (forall out,
        gen_iterators lower zeros load_word_embeddings self train_set test_set
        = Ok out ->
        let toks := concat (map (col 0) (train_set ++ test_set)) in
        (forall w, In w toks ->
                   exists i, Dict.get (vocabs_token out) w = Some i) /\
        length (vocabs_token out) = length (firsts toks)).
Proof.
  intros self v train_set test_set. split.
  - destruct self; reflexivity.
  - intros out H toks.
    destruct (gen_iterators_inv _ _ _ _ H) as (X & _ & _ & _ & _ & HX & _).
    rewrite sentences_to_ints_eq in HX. inversion HX as [[HXi HXv]].
    assert (Htok : tokens lower false (map (col 0) (train_set ++ test_set))
                   = toks).
    { unfold tokens, toks. apply map_id. }
    split.
    + intros w Hw. rewrite get_combine_seq; eauto.
      apply ranked_In. now rewrite Htok.
    + rewrite length_combine, length_seq, Nat.min_id.
      rewrite <- Htok. apply Permutation_length, ranked_perm.
Qed.
End GenIteratorsFacts.

Lemma gen_iterators_partition_witness :
  exists out,
    gen_iterators str_lower ex_zeros ex_embeddings ex_self ex_train ex_test
    = Ok out /\
    map rows_of (iterators (data_train out)) =
      map (fun f => map f ex_train)
          (row_functions str_lower ex_zeros ex_embeddings ex_self out) /\
    map rows_of (iterators (data_test out)) =
      map (fun f => map f ex_test)
          (row_functions str_lower ex_zeros ex_embeddings ex_self out).
Proof.
  destruct (gen_iterators str_lower ex_zeros ex_embeddings ex_self
                          ex_train ex_test) as [out|e] eqn:H.
  - exists out. split; [reflexivity|].
    pose proof (gen_iterators_partition str_lower nat ex_zeros ex_embeddings
                  ex_self ex_train ex_test out H) as P.
    cbv zeta in P. destruct P as (_ & _ & _ & _ & _ & Htr & Hte & _). auto.
  - vm_compute in H. discriminate H.
Defined.

Local Open Scope string_scope.
(** The run on the example corpus: five distinct tokens although
    [vocab_size] is 2, and each stream split after the one train
    sentence. *)
Example gen_iterators_ex :
  match gen_iterators str_lower ex_zeros ex_embeddings ex_self
                      ex_train ex_test with
  | Ok out =>
      vocabs_token out
      = [("runs", 0); ("He", 1); ("She", 2); ("far", 3); ("away", 4)] /\
      map rows_of (iterators (data_train out))
      = [[IntRow [0; 1; 0]]; [IntRow [0; 0; 1]];
         [IntRow [0; 0; 0; 0; 1; 3; 4; 2; 6; 7; 8; 2]]] /\
      map rows_of (iterators (data_test out))
      = [[IntRow [0; 3; 4]]; [IntRow [1; 2; 2]];
         [IntRow [9; 10; 4; 2; 6; 7; 8; 2; 11; 12; 5; 2]]]
  | Raise _ => False
  end.
Proof. vm_compute. auto. Qed.
Local Close Scope string_scope.

(* ================================================================== *)
(** * Part III: further properties of the code *)
(* ================================================================== *)

(** ** Vocabulary builder: decoding *)

(** Items whose values are all new are appended by the inverting
    comprehension of line 169, in order. *)
Lemma invert_fold (its : list (string * nat)) : forall d : Dict.t nat string,
  NoDup (map snd its) ->
  (forall si, In si its -> ~ In (snd si) (Dict.keys d)) ->
  fold_left (fun d si => Dict.set d (snd si) (fst si)) its d =
  d ++ map (fun si => (snd si, fst si)) its.
Proof.
  induction its as [|[w i] its IH]; intros d Hnd Hd; simpl.
  - now rewrite app_nil_r.
  - inversion Hnd as [|? ? Hi Hnd']; subst.
    rewrite set_absent by (apply get_None; apply (Hd (w, i)); simpl; auto).
    rewrite IH; auto.
    + now rewrite <- app_assoc.
    + intros si Hin. unfold Dict.keys. rewrite map_app, in_app_iff. simpl.
      intros [Hk|[Hk|[]]].
      * apply (Hd si); simpl; auto.
      * apply Hi. rewrite Hk. now apply in_map.
Qed.

Lemma get_seq_combine (ws : list string) : forall s i,
  Dict.get (combine (seq s (length ws)) ws) i =
  if i <? s then None else nth_error ws (i - s).
Proof.
  induction ws as [|w ws IH]; intros s i; simpl.
  - destruct (i <? s); auto. now destruct (i - s).
  - destruct (eq_dec i s) as [->|Hne].
    + rewrite Nat.ltb_irrefl, Nat.sub_diag. reflexivity.
    + rewrite IH. destruct (Nat.ltb_spec i s); destruct (Nat.ltb_spec i (S s));
        try lia; auto.
      replace (i - s) with (S (i - S s)) by lia. reflexivity.
Qed.

(** The inverse of a table that numbers distinct words from 0. *)
Lemma invert_vocab_ranked (ws : list string) :
  invert_vocab (combine ws (seq 0 (length ws))) =
  combine (seq 0 (length ws)) ws.
Proof.
  unfold invert_vocab, Dict.items, Dict.empty.
  rewrite invert_fold.
  - simpl. generalize 0. induction ws as [|w ws IH]; intros s; simpl; auto.
    now rewrite IH.
  - fold (Dict.values (combine ws (seq 0 (length ws)))).
    rewrite values_combine_seq. apply seq_NoDup.
  - intros si _ [].
Qed.

Lemma get_invert_ranked (ws : list string) (i : nat) :
  Dict.get (invert_vocab (combine ws (seq 0 (length ws)))) i = nth_error ws i.
Proof.
  rewrite invert_vocab_ranked, get_seq_combine. simpl. now rewrite Nat.sub_0_r.
Qed.

Lemma get_ranked_nth (ws : list string) (w : string) (i : nat) :
  NoDup ws ->
  (Dict.get (combine ws (seq 0 (length ws))) w = Some i <->
   nth_error ws i = Some w).
Proof.
  intros Hnd. split.
  - intros Hg. pose proof (get_Some_key _ _ _ Hg) as Hin.
    rewrite keys_combine_seq in Hin.
    rewrite get_combine_seq in Hg by auto. inversion Hg; subst.
    now apply nth_error_index_of.
  - intros Hn. pose proof (nth_error_In _ _ Hn) as Hin.
    rewrite get_combine_seq by auto. f_equal. simpl.
    now apply index_of_nth_error.
Qed.

(** X1. The id sequences returned by [_sentences_to_ints] have the shape
    of the input (one sequence per sentence, one id per token), every id
    is below the size of the vocabulary, and looking an id up in the
    inverted vocabulary of line 169 gives back the token it was made
    from (lower-cased when the flag is set). *)
Theorem sentences_to_ints_decode :
  forall (lower : string -> string) (texts : list (list string))
         (lowercase : bool),
    exists ids vocab,
      _sentences_to_ints lower texts lowercase = Ok (ids, vocab) /\
      Forall2 (Forall2 (fun w i =>
                 i < length vocab /\
                 Dict.get vocab (norm lower lowercase w) = Some i /\
                 Dict.get (invert_vocab vocab) i
                 = Some (norm lower lowercase w)))
              texts ids.
Proof.
  intros lower texts lowercase. rewrite sentences_to_ints_eq.
  do 2 eexists. split; [reflexivity|].
  set (ws := ranked lower lowercase texts).
  assert (Hin : forall sen w, In sen texts -> In w sen ->
                              In (norm lower lowercase w) ws).
  { intros sen w Hs Hw. apply ranked_In. eapply token_In; eauto. }
  clearbody ws. induction texts as [|sen texts IH]; simpl; constructor.
  - assert (Hsen : forall w, In w sen -> In (norm lower lowercase w) ws)
      by (intros w Hw; apply (Hin sen); simpl; auto).
    clear IH Hin. induction sen as [|w sen IHs]; simpl; constructor.
    + pose proof (Hsen w (or_introl eq_refl)) as Hw.
      rewrite get_combine_seq, get_invert_ranked by auto. simpl.
      rewrite length_combine, length_seq, Nat.min_id.
      split; [now apply index_of_lt|]. split; auto.
      now apply nth_error_index_of.
    + apply IHs. intros; apply Hsen; simpl; auto.
  - apply IH. intros s w Hs Hw. apply (Hin s); simpl; auto.
Qed.

(** X2. The vocabulary returned by [_sentences_to_ints] is one-to-one,
    and the dictionary that line 169 builds from it is its inverse: it
    maps [i] to [w] exactly when the vocabulary maps [w] to [i], and it
    has an entry exactly for the ids below the vocabulary size. *)
Theorem invert_vocab_inverse :
  forall (lower : string -> string) (texts : list (list string))
         (lowercase : bool),
    exists ids vocab,
      _sentences_to_ints lower texts lowercase = Ok (ids, vocab) /\
      (forall w i, Dict.get (invert_vocab vocab) i = Some w <->
                   Dict.get vocab w = Some i) /\
      (forall w1 w2 i, Dict.get vocab w1 = Some i ->
                       Dict.get vocab w2 = Some i -> w1 = w2) /\
      (forall i, Dict.get (invert_vocab vocab) i = None <->
                 length vocab <= i).
Proof.
  intros lower texts lowercase. rewrite sentences_to_ints_eq.
  do 2 eexists. split; [reflexivity|].
  set (ws := ranked lower lowercase texts).
  assert (Hnd : NoDup ws) by apply ranked_NoDup.
  split; [|split].
  - intros w i. rewrite get_invert_ranked. symmetry.
    now apply get_ranked_nth.
  - intros w1 w2 i H1 H2. apply get_ranked_nth in H1, H2; auto. congruence.
  - intros i. rewrite get_invert_ranked, length_combine, length_seq, Nat.min_id.
    apply nth_error_None.
Qed.

(** X3. Bounds of the vector lookup of lines 174-182 on the vocabulary of
    [_sentences_to_ints]: a cell value up to 2 gives the zero vector; a
    larger value [w] below the vocabulary size plus 3 gives a vector
    (that of the lower-cased word with id [w - 3], or the zero vector when
    the embeddings do not know it); from the vocabulary size plus 3 on
    the lookup raises [KeyError] for the key [w - 3]. *)
Theorem w2v_cell_bounds :
  forall (lower : string -> string) (texts : list (list string))
         (lowercase : bool),
    exists ids vocab,
      _sentences_to_ints lower texts lowercase = Ok (ids, vocab) /\
      forall (vec : Type) (zeros : nat -> vec) (w2v_dict : Dict.t string vec)
             (emb w : nat),
        (w <= 2 ->
         w2v_cell lower zeros (invert_vocab vocab) w2v_dict emb w
         = Ok (zeros emb)) /\
        (2 < w -> w < length vocab + 3 ->
         exists word,
           Dict.get vocab word = Some (w - 3) /\
           w2v_cell lower zeros (invert_vocab vocab) w2v_dict emb w
           = Ok (match Dict.get w2v_dict (lower word) with
                 | Some v => v
                 | None => zeros emb
                 end)) /\
        (length vocab + 3 <= w ->
         w2v_cell lower zeros (invert_vocab vocab) w2v_dict emb w
         = Raise (KeyErrorInt (Z.of_nat w - 3))).
Proof.
  intros lower texts lowercase. rewrite sentences_to_ints_eq.
  do 2 eexists. split; [reflexivity|].
  set (ws := ranked lower lowercase texts).
  assert (Hnd : NoDup ws) by apply ranked_NoDup.
  intros vec zeros w2v_dict emb w. unfold w2v_cell.
  rewrite get_invert_ranked, length_combine, length_seq, Nat.min_id.
  split; [|split].
  - intros Hw. apply Nat.leb_le in Hw. now rewrite Hw.
  - intros H2 Hlt. apply Nat.leb_gt in H2. rewrite H2. simpl.
    destruct (nth_error ws (w - 3)) as [word|] eqn:Hn.
    + exists word. split; [now apply get_ranked_nth|].
      now destruct (Dict.get w2v_dict (lower word)).
    + apply nth_error_None in Hn. apply Nat.leb_gt in H2. lia.
  - intros Hge. assert (H2 : (w <=? 2) = false) by (apply Nat.leb_gt; lia).
    rewrite H2. simpl.
    assert (Hn : nth_error ws (w - 3) = None) by (apply nth_error_None; lia).
    now rewrite Hn.
Qed.

(** ** Corpus parser: file ends, concatenation, ragged lines *)

Lemma closed_blocks_open (tail : list string) : forall cur,
  Forall (fun l => is_blank l = false) tail -> closed_blocks cur tail = [].
Proof.
  induction tail as [|l tail IH]; intros cur Hall; simpl; auto.
  inversion Hall as [|? ? Hl Htail]; subst. rewrite Hl. now apply IH.
Qed.

Lemma closed_blocks_app_open (l1 tail : list string) : forall cur,
  Forall (fun l => is_blank l = false) tail ->
  closed_blocks cur (l1 ++ tail) = closed_blocks cur l1.
Proof.
  induction l1 as [|l l1 IH]; intros cur Hall; simpl.
  - now apply closed_blocks_open.
  - destruct (is_blank l); [f_equal|]; now apply IH.
Qed.

Lemma closed_blocks_app_blank (l1 l2 : list string) (b : string) :
  is_blank b = true ->
  forall cur,
    closed_blocks cur (l1 ++ b :: l2) =
    closed_blocks cur (l1 ++ [b]) ++ closed_blocks [] l2.
Proof.
  intros Hb. induction l1 as [|l l1 IH]; intros cur; simpl.
  - now rewrite Hb.
  - destruct (is_blank l); [simpl; f_equal|]; apply IH.
Qed.

(** X4. Lines that follow the last blank line of a file contribute
    nothing: a block that the end of the file cuts short is dropped,
    whatever its length. *)
Theorem parse_entries_unterminated_block :
  forall lines tail : list string,
    Forall (fun l => is_blank l = false) tail ->
    parse_entries (lines ++ tail) = parse_entries lines.
Proof.
  intros lines tail Hall. rewrite !parse_entries_closed_blocks.
  now rewrite closed_blocks_app_open.
Qed.

Local Open Scope string_scope.
Lemma parse_entries_unterminated_block_witness :
  Forall (fun l => is_blank l = false) ["c DT B-NP"; "d NN I-NP"] /\
  parse_entries (["a DT B-NP"; "b NN I-NP"; ""] ++ ["c DT B-NP"; "d NN I-NP"])
  = parse_entries ["a DT B-NP"; "b NN I-NP"; ""].
Proof.
  assert (H : Forall (fun l => is_blank l = false) ["c DT B-NP"; "d NN I-NP"])
    by (repeat constructor).
  split; [exact H|].
  exact (parse_entries_unterminated_block
           ["a DT B-NP"; "b NN I-NP"; ""] ["c DT B-NP"; "d NN I-NP"] H).
Defined.
Local Close Scope string_scope.

(** X5. Parsing distributes over a blank line: the sentences of a file
    are those of the part up to and including a blank line, followed by
    those of the rest. *)
Theorem parse_entries_app_blank :
  forall (l1 l2 : list string) (b : string),
    is_blank b = true ->
    parse_entries (l1 ++ b :: l2) =
    parse_entries (l1 ++ [b]) ++ parse_entries l2.
Proof.
  intros l1 l2 b Hb. rewrite !parse_entries_closed_blocks.
  rewrite closed_blocks_app_blank by auto.
  now rewrite filter_app, map_app.
Qed.

Local Open Scope string_scope.
Lemma parse_entries_app_blank_witness :
  is_blank " " = true /\
  parse_entries (["a DT B-NP"; "b NN I-NP"] ++ " " :: ["c DT"; "d NN"; ""])
  = (parse_entries (["a DT B-NP"; "b NN I-NP"] ++ [" "])
     ++ parse_entries ["c DT"; "d NN"; ""])%list.
Proof.
  assert (H : is_blank " " = true) by reflexivity.
  split; [exact H|].
  exact (parse_entries_app_blank ["a DT B-NP"; "b NN I-NP"]
                                 ["c DT"; "d NN"; ""] " " H).
Defined.
Local Close Scope string_scope.

(** *** The transposition [zip( *rows)] *)

Lemma heads_Some {A} (rows : list (list A)) :
  (exists hs, heads rows = Some hs) <-> Forall (fun r => 0 < length r) rows.
Proof.
  induction rows as [|r rows IH]; simpl.
  - split; [constructor | eauto].
  - destruct r as [|a r].
    + split; [intros [hs Hh]; discriminate|].
      intros Hall. inversion Hall; subst. simpl in *. lia.
    + destruct (heads rows) as [hs|].
      * split; [|eauto]. intros _. constructor; [simpl; lia|].
        apply IH. eauto.
      * split; [intros [hs Hh]; discriminate|].
        intros Hall. inversion Hall; subst.
        destruct (proj2 IH) as [hs Hh]; [auto|discriminate].
Qed.

Lemma zip_upto_length {A} (n : nat) : forall (rows : list (list A)) (k : nat),
  k < length (zip_upto n rows) <->
  k < n /\ Forall (fun r => k < length r) rows.
Proof.
  induction n as [|n IH]; intros rows k; simpl.
  - split; [lia | intros [? _]; lia].
  - destruct (heads rows) as [hs|] eqn:Hh.
    + assert (H0 : Forall (fun r => 0 < length r) rows)
        by (apply heads_Some; eauto).
      destruct k as [|k]; simpl.
      * split; [intros _; split; [lia|auto] | lia].
      * rewrite <- Nat.succ_lt_mono, IH, <- Nat.succ_lt_mono.
        rewrite Forall_map.
        split; intros [Hk Hall]; split; auto;
          rewrite Forall_forall in *; intros r Hr;
          specialize (Hall r Hr); specialize (H0 r Hr);
          destruct r; simpl in *; lia.
    + simpl. split; [lia|]. intros [_ Hall]. exfalso.
      assert (H0 : Forall (fun r => 0 < length r) rows).
      { rewrite Forall_forall in *. intros r Hr. specialize (Hall r Hr). lia. }
      apply heads_Some in H0. destruct H0 as [hs Hhs]. congruence.
Qed.

Lemma zip_star_length {A} (rows : list (list A)) (k : nat) :
  k < length (zip_star rows) <->
  rows <> [] /\ Forall (fun r => k < length r) rows.
Proof.
  destruct rows as [|r rows].
  - simpl. split; [lia | intros [Hne _]; congruence].
  - unfold zip_star. rewrite zip_upto_length.
    split.
    + intros [_ Hall]. split; [discriminate|auto].
    + intros [_ Hall]. split; auto. now inversion Hall.
Qed.

(** [zip( *rows)], as lines 112 and 151 use it, never fails on
    ragged rows; it cuts at the shortest row.  It has a k-th tuple exactly
    when there is at least one row and every row has more than [k]
    elements, and that tuple lists the k-th element of every row, in
    order. *)
Theorem zip_star_spec :
  forall (A : Type) (d : A) (rows : list (list A)) (k : nat) (c : list A),
    nth_error (zip_star rows) k = Some c <->
    (rows <> [] /\ Forall (fun r => k < length r) rows /\
     c = map (fun r => nth k r d) rows).
Proof.
  intros A d rows k c. split.
  - intros Hn. pose proof (zip_star_nth d rows k c Hn) as Hc.
    assert (Hk : k < length (zip_star rows))
      by (apply nth_error_Some; congruence).
    apply zip_star_length in Hk. tauto.
  - intros (Hne & Hall & ->).
    assert (Hk : k < length (zip_star rows))
      by (apply zip_star_length; auto).
    apply nth_error_Some in Hk.
    destruct (nth_error (zip_star rows) k) as [c|] eqn:Hn; [|congruence].
    f_equal. now apply zip_star_nth.
Qed.

(** *** Fields of a line *)

Lemma lstrip_head (s : string) :
  lstrip s = EmptyString \/
  exists c r, lstrip s = String c r /\ is_space c = false.
Proof.
  induction s as [|c s IH]; simpl; auto.
  destruct (is_space c) eqn:Hc; auto. right. eauto.
Qed.

Lemma rstrip_head (c : ascii) (r : string) :
  is_space c = false -> exists r', rstrip (String c r) = String c r'.
Proof.
  intros Hc. simpl. destruct (rstrip r); [rewrite Hc|]; eauto.
Qed.

Lemma split_from_nonempty (s : string) : forall cur,
  cur <> EmptyString -> split_from cur s <> [].
Proof.
  induction s as [|c s IH]; intros cur Hcur; simpl.
  - destruct cur; [congruence|discriminate].
  - destruct (is_space c).
    + destruct cur; [congruence|discriminate].
    + apply IH. destruct cur; discriminate.
Qed.

(** A line that is not blank has at least one field. *)
Lemma fields_nonblank (l : string) :
  is_blank l = false -> 0 < length (fields l).
Proof.
  unfold is_blank, fields, strip. intros Hb. rewrite length_map.
  destruct (lstrip_head l) as [He|(c & r & He & Hc)]; rewrite He in *.
  - discriminate.
  - destruct (rstrip_head c r Hc) as [r' Hr]. rewrite Hr.
    unfold split. simpl. rewrite Hc.
    pose proof (split_from_nonempty r' (String c EmptyString)) as Hne.
    destruct (split_from _ r'); [elim Hne; [discriminate|reflexivity]|].
    simpl. lia.
Qed.

Lemma closed_blocks_nonblank (lines : list string) : forall cur b,
  Forall (fun l => is_blank l = false) cur ->
  In b (closed_blocks cur lines) ->
  Forall (fun l => is_blank l = false) b.
Proof.
  induction lines as [|l lines IH]; intros cur b Hcur Hin; simpl in Hin.
  - destruct Hin.
  - destruct (is_blank l) eqn:Hl.
    + destruct Hin as [<-|Hin]; auto.
      apply (IH [] b); [constructor | exact Hin].
    + apply (IH (cur ++ [l]) b); [|exact Hin].
      apply Forall_app. split; auto.
Qed.

(** X6. A sentence produced by [parse_entries] has as many columns as
    the shortest line of its block has fields, and at least one: column
    [k] exists exactly when every line of the block has more than [k]
    fields; the further fields of longer lines are dropped. *)
Theorem parse_entries_column_count :
  forall lines : list string,
    Forall (fun s : sentence =>
              1 <= length s /\
              exists b, In b (closed_blocks [] lines) /\
                        s = sentence_of b /\
                        forall k, k < length s <->
                                  Forall (fun l => k < length (fields l)) b)
           (parse_entries lines).
Proof.
  intros lines. rewrite parse_entries_closed_blocks.
  apply Forall_forall. intros s Hs.
  apply in_map_iff in Hs. destruct Hs as (b & <- & Hb).
  apply filter_In in Hb. destruct Hb as [Hin Hlen].
  apply Nat.ltb_lt in Hlen.
  assert (Hcount : forall k, k < length (sentence_of b) <->
                             Forall (fun l => k < length (fields l)) b).
  { intros k. unfold sentence_of. rewrite zip_star_length, Forall_map.
    split; [tauto|]. intros Hall. split; auto.
    destruct b; [simpl in Hlen; lia|discriminate]. }
  split.
  - apply Hcount.
    pose proof (closed_blocks_nonblank lines [] b (Forall_nil _) Hin) as Hnb.
    rewrite Forall_forall in *. intros l Hl. now apply fields_nonblank, Hnb.
  - exists b. auto.
Qed.

(** ** Feature assembler: when it raises [IndexError] *)

Lemma column_cases (k : nat) (set : list sentence) :
  (column k set = Ok (map (col k) set) /\
   set <> [] /\ Forall (fun s => k < length s) set) \/
  (column k set = Raise IndexError /\
   (set = [] \/ Exists (fun s => length s <= k) set)).
Proof.
  unfold column.
  destruct (nth_error (zip_star set) k) as [c|] eqn:Hn.
  - left. pose proof (zip_star_nth [] set k c Hn) as Hc.
    assert (Hk : k < length (zip_star set))
      by (apply nth_error_Some; congruence).
    apply zip_star_length in Hk. subst c. tauto.
  - right. split; auto. apply nth_error_None in Hn.
    destruct set as [|s set]; auto. right.
    destruct (Forall_Exists_dec (fun s => k < length s)
                (fun s => lt_dec k (length s)) (s :: set)) as [Hall|Hex].
    + assert (Hk : k < length (zip_star (s :: set)))
        by (apply zip_star_length; split; [discriminate|auto]).
      lia.
    + eapply Exists_impl; [|exact Hex]. simpl. intros; lia.
Qed.

(** X7. [list(zip( *set))[k]] (lines 151, 155 and 206) yields column [k]
    of every sentence, in order, when the set is not empty and every
    sentence has more than [k] columns; otherwise it raises, and what it
    raises is [IndexError]. *)
Theorem column_spec :
  forall (k : nat) (set : list sentence),
    (forall c, column k set = Ok c <->
               set <> [] /\ Forall (fun s => k < length s) set /\
               c = map (col k) set) /\
    (forall e, column k set = Raise e <->
               e = IndexError /\
               (set = [] \/ Exists (fun s => length s <= k) set)).
Proof.
  intros k set.
  destruct (column_cases k set) as [(Hc & Hne & Hall)|(Hc & Hbad)];
    rewrite Hc; split.
  - intros c. split.
    + intros [= <-]. auto.
    + intros (_ & _ & ->). reflexivity.
  - intros e. split; [discriminate|].
    intros [_ [He|Hex]]; [congruence|].
    exfalso. apply Exists_exists in Hex. destruct Hex as (s & Hs & Hlen).
    rewrite Forall_forall in Hall. specialize (Hall s Hs). lia.
  - intros c. split; [discriminate|].
    intros (Hne & Hall & _). exfalso. destruct Hbad as [He|Hex]; [congruence|].
    apply Exists_exists in Hex. destruct Hex as (s & Hs & Hlen).
    rewrite Forall_forall in Hall. specialize (Hall s Hs). lia.
  - intros e. split.
    + intros [= <-]. auto.
    + intros [-> _]. reflexivity.
Qed.

Lemma reshape_rows_raise (a : ndarray) (k : nat) (e : exn) :
  reshape_rows a k = Raise e -> e = ValueError.
Proof.
  unfold reshape_rows.
  destruct ((k =? 0) || negb (length (flat a) mod k =? 0));
    [intros [= <-]; auto | discriminate].
Qed.

Section GenIteratorsErrors.
Variable lower : string -> string.
Variable vec : Type.
Variable zeros : nat -> vec.
Variable load_word_embeddings : option string -> Dict.t string vec * nat.
Implicit Types (self : CONLL2000) (out : outputs vec) (e : exn).

Lemma w2v_rows_raise x_vocab_is w2v_dict emb X e :
  w2v_rows lower zeros x_vocab_is w2v_dict emb X = Raise e ->
  exists k, e = KeyErrorInt k.
Proof.
  unfold w2v_rows. intros H.
  apply mapM_Raise_inv in H. destruct H as (r & _ & H).
  apply mapM_Raise_inv in H. destruct H as (w & _ & H).
  unfold w2v_cell in H.
  destruct ((0 <=? w) && (w <=? 2)); [discriminate|].
  destruct (Dict.get x_vocab_is (w - 3)) as [word|].
  - destruct (Dict.get w2v_dict (lower word)); discriminate.
  - inversion H. eauto.
Qed.

Lemma token_iterators_raise self n X X_vocab yy ysz e :
  token_iterators lower zeros load_word_embeddings self n X X_vocab yy ysz
  = Raise e ->
  exists k, e = KeyErrorInt k.
Proof.
  unfold token_iterators. destruct (use_w2v self); [|discriminate].
  destruct (load_word_embeddings (w2v_path self)) as [d emb].
  destruct (w2v_rows _ _ _ _ _ _) as [R|e'] eqn:HR; cbn [bind];
    [discriminate|].
  intros [= <-]. eapply w2v_rows_raise; eauto.
Qed.

Lemma pos_iterators_raise self n (train test : list sentence) yy e :
  @pos_iterators lower vec self n train test yy = Raise e ->
  train <> [] -> test <> [] ->
  Forall (fun s => 2 < length s) train -> Forall (fun s => 2 < length s) test ->
  False.
Proof.
  unfold pos_iterators. destruct (use_pos self); [|discriminate].
  intros H Htr Hte Hatr Hate.
  destruct (column_cases 1 train) as [(Hc & _)|(_ & [He|Hex])].
  - rewrite Hc in H. cbn [bind] in H.
    destruct (column_cases 1 test) as [(Hc' & _)|(_ & [He|Hex])].
    + rewrite Hc' in H. cbn [bind] in H.
      rewrite sentences_to_ints_eq in H. discriminate.
    + congruence.
    + apply Exists_exists in Hex. destruct Hex as (s & Hs & Hlen).
      rewrite Forall_forall in Hate. specialize (Hate s Hs). lia.
  - congruence.
  - apply Exists_exists in Hex. destruct Hex as (s & Hs & Hlen).
    rewrite Forall_forall in Hatr. specialize (Hatr s Hs). lia.
Qed.

Lemma char_iterators_raise self n (sents : list (list string)) e :
  @char_iterators vec self n sents = Raise e -> e = ValueError.
Proof.
  unfold char_iterators. destruct (use_chars self); [|discriminate].
  rewrite create_char_features_eq. cbn [bind fst snd].
  destruct (reshape_rows _ _) eqn:Hr; cbn [bind]; [discriminate|].
  intros [= <-]. eapply reshape_rows_raise; eauto.
Qed.

(** X8. [gen_iterators] raises [IndexError] exactly when the train set
    or the test set is empty or some sentence has fewer than three
    columns (tokens, POS tags, chunk tags), whatever the configuration. *)
Theorem gen_iterators_index_error :
  forall self (train_set test_set : list sentence),
    gen_iterators lower zeros load_word_embeddings self train_set test_set
    = Raise IndexError <->
    (train_set = [] \/ test_set = [] \/
     Exists (fun s => length s < 3) (train_set ++ test_set)).
Proof.
  intros self train_set test_set. unfold gen_iterators.
  assert (Htr : forall k, k <= 2 ->
            Exists (fun s : sentence => length s <= k) train_set ->
            Exists (fun s => length s < 3) (train_set ++ test_set)).
  { intros k Hk Hex. apply Exists_app. left.
    eapply Exists_impl; [|exact Hex]. simpl. intros; lia. }
  assert (Hte : forall k, k <= 2 ->
            Exists (fun s : sentence => length s <= k) test_set ->
            Exists (fun s => length s < 3) (train_set ++ test_set)).
  { intros k Hk Hex. apply Exists_app. right.
    eapply Exists_impl; [|exact Hex]. simpl. intros; lia. }
  destruct (column_cases 0 train_set) as [(-> & Hn0 & _)|(-> & Hbad)];
    cbn [bind].
  2:{ split; auto. intros _. destruct Hbad as [?|Hb]; auto.
      right; right. apply (Htr 0); [lia|exact Hb]. }
  destruct (column_cases 0 test_set) as [(-> & Hn0' & _)|(-> & Hbad)];
    cbn [bind].
  2:{ split; auto. intros _. destruct Hbad as [?|Hb]; auto.
      right; right. apply (Hte 0); [lia|exact Hb]. }
  rewrite sentences_to_ints_eq. cbn [bind fst snd].
  destruct (column_cases 2 train_set) as [(-> & _ & Hall)|(-> & Hbad)];
    cbn [bind].
  2:{ split; auto. intros _. destruct Hbad as [?|Hb]; auto.
      right; right. apply (Htr 2); [lia|exact Hb]. }
  destruct (column_cases 2 test_set) as [(-> & _ & Hall')|(-> & Hbad)];
    cbn [bind].
  2:{ split; auto. intros _. destruct Hbad as [?|Hb]; auto.
      right; right. apply (Hte 2); [lia|exact Hb]. }
  rewrite sentences_to_ints_eq. cbn [bind fst snd].
  split.
  - intros H. exfalso.
    destruct (token_iterators _ _ _ _ _ _ _ _ _) as [tok|e] eqn:Htok;
      cbn [bind] in H.
    2:{ apply token_iterators_raise in Htok. destruct Htok as [k ->].
        discriminate. }
    destruct (pos_iterators _ _ _ _ _ _) as [pos|e] eqn:Hpos; cbn [bind] in H.
    2:{ eapply pos_iterators_raise; eauto. }
    destruct (char_iterators _ _ _) as [chars|e] eqn:Hchars; cbn [bind] in H.
    2:{ apply char_iterators_raise in Hchars. subst e. discriminate. }
    discriminate.
  - intros [?|[?|Hbad]]; [congruence|congruence|]. exfalso.
    apply Exists_app in Hbad.
    destruct Hbad as [Hb|Hb]; apply Exists_exists in Hb;
      destruct Hb as (s & Hs & Hlen);
      [rewrite Forall_forall in Hall; specialize (Hall s Hs)
      |rewrite Forall_forall in Hall'; specialize (Hall' s Hs)]; lia.
Qed.
End GenIteratorsErrors.

(** ** Character feature builder: cells, padding, dictionary *)

Lemma char_dict_value_bound (ks : list ascii) (c : ascii) :
  Dict.get_default (combine ks (seq 3 (length ks))) c 0 < 3 + length ks.
Proof.
  unfold Dict.get_default.
  destruct (in_dec eq_dec c ks) as [Hin|Hnin].
  - rewrite get_combine_seq by auto. apply index_of_lt in Hin. lia.
  - assert (Hg : Dict.get (combine ks (seq 3 (length ks))) c = None)
      by (apply get_None; now rewrite keys_combine_seq).
    rewrite Hg. lia.
Qed.

Lemma pad_row_cells (P : nat -> Prop) (n : nat) (l : list nat) :
  P 0 -> Forall P l -> Forall P (pad_row n l).
Proof.
  intros H0 Hl. unfold pad_row. apply Forall_app. split.
  - apply Forall_forall. intros x Hx. apply repeat_spec in Hx. now subst.
  - rewrite Forall_forall in *. intros x Hx. apply Hl.
    rewrite <- (firstn_skipn (length l - n) l). apply in_or_app. auto.
Qed.

Lemma fitted_rows_cells (P : nat -> Prop) (S W : nat) (rows : list (list nat)) :
  P 0 -> Forall (Forall P) rows -> Forall (Forall P) (fitted_rows S W rows).
Proof.
  intros H0 Hr. unfold fitted_rows. destruct (S <? length rows).
  - rewrite Forall_forall in *. intros r Hin. apply Hr.
    rewrite <- (firstn_skipn S rows). apply in_or_app. auto.
  - apply Forall_app. split; auto.
    apply Forall_forall. intros r Hin. apply repeat_spec in Hin. subst.
    apply Forall_forall. intros x Hx. apply repeat_spec in Hx. now subst.
Qed.

(** X9. Every cell of the array returned by [create_char_features] is
    below 3 plus the size of the character dictionary it leaves: the
    cells are the padding 0, the sentinels 1 and 2, and character ids. *)
Theorem create_char_features_cell_bound :
  forall (sentences : list (list string)) (S W : nat),
    exists arr char_dict,
      create_char_features sentences S W = Ok (arr, char_dict) /\
      Forall (Forall (Forall (fun cell => cell < 3 + length char_dict)))
             (mats arr).
Proof.
  intros sentences S W.
  destruct (create_char_features_rows sentences S W) as (arr & Hrun & Hmats).
  set (ks := firsts (corpus_chars sentences)) in *.
  do 2 eexists. split; [exact Hrun|].
  rewrite Hmats, length_combine, length_seq, Nat.min_id.
  apply Forall_forall. intros m Hm. apply in_map_iff in Hm.
  destruct Hm as (s & <- & _).
  apply fitted_rows_cells; [lia|].
  apply Forall_forall. intros r Hr. apply in_map_iff in Hr.
  destruct Hr as (v & <- & Hv). apply in_map_iff in Hv.
  destruct Hv as (w & <- & _).
  apply pad_row_cells; [lia|]. unfold word_vector.
  apply Forall_app. split; [constructor; [lia|constructor]|].
  apply Forall_app. split; [|constructor; [lia|constructor]].
  apply Forall_forall. intros x Hx. apply in_map_iff in Hx.
  destruct Hx as (c & <- & _). apply char_dict_value_bound.
Qed.

(** X10. For a sentence with at most [sentence_length] words,
    [create_char_features] puts the rows of all its words, in order, at
    the end of the sentence's matrix and fills the rows before them with
    zeros (lines 139-141). *)
Theorem create_char_features_pads_front :
  forall (sentences : list (list string)) (S W : nat) (i : nat)
         (s : list string),
    nth_error sentences i = Some s -> length s <= S ->
    exists arr char_dict,
      create_char_features sentences S W = Ok (arr, char_dict) /\
      nth_error (mats arr) i =
        Some (repeat (repeat 0 W) (S - length s)
              ++ map (pad_row W) (map (word_vector char_dict) s)).
Proof.
  intros sentences S W i s Hs Hlen.
  destruct (create_char_features_rows sentences S W) as (arr & Hrun & Hmats).
  do 2 eexists. split; [exact Hrun|].
  rewrite Hmats, nth_error_map, Hs. cbn [option_map]. f_equal.
  unfold fitted_rows. rewrite !length_map.
  destruct (Nat.ltb_spec S (length s)); [lia|reflexivity].
Qed.

Lemma create_char_features_pads_front_witness :
  nth_error [["ab"; "c"]%string] 0 = Some ["ab"; "c"]%string /\
  length ["ab"; "c"]%string <= 3 /\
  exists arr char_dict,
    create_char_features [["ab"; "c"]%string] 3 4 = Ok (arr, char_dict) /\
    nth_error (mats arr) 0 =
      Some (repeat (repeat 0 4) (3 - length ["ab"; "c"]%string)
            ++ map (pad_row 4) (map (word_vector char_dict) ["ab"; "c"]%string)).
Proof.
  assert (H1 : nth_error [["ab"; "c"]%string] 0 = Some ["ab"; "c"]%string)
    by reflexivity.
  assert (H2 : length ["ab"; "c"]%string <= 3) by (simpl; lia).
  split; [exact H1|]. split; [exact H2|].
  exact (create_char_features_pads_front
           [["ab"; "c"]%string] 3 4 0 ["ab"; "c"]%string H1 H2).
Defined.

(** X11. The character dictionary does not depend on the two target
    lengths: it has an id for every character of every word of the
    corpus, also for the words and characters that the truncation keeps
    out of the array. *)
Theorem create_char_features_dict_independent :
  forall (sentences : list (list string)) (S W S' W' : nat),
    exists arr arr' char_dict,
      create_char_features sentences S W = Ok (arr, char_dict) /\
      create_char_features sentences S' W' = Ok (arr', char_dict) /\
      forall s w c,
        In s sentences -> In w s -> In c (list_ascii_of_string w) ->
        exists i, Dict.get char_dict c = Some i.
Proof.
  intros sentences S W S' W'.
  destruct (create_char_features_rows sentences S W) as (arr & Hrun & _).
  destruct (create_char_features_rows sentences S' W') as (arr' & Hrun' & _).
  do 3 eexists. split; [exact Hrun|]. split; [exact Hrun'|].
  intros s w c Hs Hw Hc.
  rewrite get_combine_seq; eauto.
  apply firsts_In. eapply corpus_chars_In; eauto.
Qed.

(** ** Feature assembler: what the returned iterators look like *)

Section GenIteratorsShape.
Variable lower : string -> string.
Variable vec : Type.
Variable zeros : nat -> vec.
Variable load_word_embeddings : option string -> Dict.t string vec * nat.
Implicit Types (self : CONLL2000) (out : outputs vec).

Lemma token_iterators_shape self n X X_vocab yy ysz r :
  token_iterators lower zeros load_word_embeddings self n X X_vocab yy ysz
  = Ok r ->
  (fst (fst r) = None <-> use_w2v self = false) /\
  Forall (fun it => steps it = sentence_length self /\
                    num_classes it = Some ysz /\
                    vec_input it = use_w2v self /\
                    exists labels, y it = Some labels)
         [snd (fst r); snd r].
Proof.
  unfold token_iterators. destruct (use_w2v self).
  - destruct (load_word_embeddings (w2v_path self)) as [d emb].
    destruct (w2v_rows _ _ _ _ _ _); cbn [bind]; [|discriminate].
    intros [= <-]. cbn. split; [split; discriminate|].
    repeat constructor; simpl; eauto.
  - intros [= <-]. cbn. split; [tauto|]. repeat constructor; simpl; eauto.
Qed.

Lemma pos_iterators_shape self n (train test : list sentence) yy r :
  @pos_iterators lower vec self n train test yy = Ok r ->
  (fst (fst r) = None <-> use_pos self = false) /\
  length (snd r) = length (snd (fst r)) /\
  Forall (plain (sentence_length self)) (snd (fst r) ++ snd r).
Proof.
  unfold pos_iterators, plain. destruct (use_pos self).
  - destruct (column 1 train); cbn [bind]; [|discriminate].
    destruct (column 1 test); cbn [bind]; [|discriminate].
    destruct (_sentences_to_ints _ _ _); cbn [bind]; [|discriminate].
    intros [= <-]. cbn. split; [split; discriminate|].
    split; auto. repeat constructor.
  - intros [= <-]. cbn. split; [tauto|]. split; auto.
Qed.

Lemma char_iterators_shape self n (sents : list (list string)) r :
  @char_iterators vec self n sents = Ok r ->
  (fst (fst r) = None <-> use_chars self = false) /\
  length (snd r) = length (snd (fst r)) /\
  Forall (plain (chars_len self * sentence_length self))
         (snd (fst r) ++ snd r).
Proof.
  unfold char_iterators, plain. destruct (use_chars self).
  - destruct (create_char_features _ _ _); cbn [bind]; [|discriminate].
    destruct (reshape_rows _ _); cbn [bind]; [|discriminate].
    intros [= <-]. cbn. split; [split; discriminate|].
    split; auto. repeat constructor.
  - intros [= <-]. cbn. split; [tauto|]. split; auto.
Qed.

(** A successful run, stream by stream. *)
Lemma gen_iterators_structure self (train_set test_set : list sentence) out :
  gen_iterators lower zeros load_word_embeddings self train_set test_set
  = Ok out ->
  let n := length train_set in
  let corpus := train_set ++ test_set in
  exists X Y tok pos chars,
    _sentences_to_ints lower (map (col 0) corpus) false
      = Ok (X, vocabs_token out) /\
    _sentences_to_ints lower (map (col 2) corpus) false
      = Ok (Y, y_vocab out) /\
    token_iterators lower zeros load_word_embeddings self n
      (map (pad_row (sentence_length self)) X) (vocabs_token out)
      (map (pad_row (sentence_length self)) Y) (y_size out) = Ok tok /\
    pos_iterators lower self n train_set test_set
      (map (pad_row (sentence_length self)) Y) = Ok pos /\
    char_iterators self n (map (col 0) corpus) = Ok chars /\
    vocabs_pos out = fst (fst pos) /\
    vocabs_char_rnn out = fst (fst chars) /\
    emb_size out = fst (fst tok) /\
    y_size out = length (y_vocab out) + 1 /\
    data_train out =
      (if 1 <? length (snd (fst tok) :: snd (fst pos) ++ snd (fst chars))
       then MultiSequenceDataIterator
              (snd (fst tok) :: snd (fst pos) ++ snd (fst chars))
       else Single (snd (fst tok))) /\
    data_test out =
      (if 1 <? length (snd (fst tok) :: snd (fst pos) ++ snd (fst chars))
       then MultiSequenceDataIterator (snd tok :: snd pos ++ snd chars)
       else Single (snd tok)).
Proof.
  intros H. intros n corpus. unfold gen_iterators in H.
  destruct (column 0 train_set) as [tr0|] eqn:H0; cbn [bind] in H;
    [|discriminate].
  destruct (column 0 test_set) as [te0|] eqn:H0'; cbn [bind] in H;
    [|discriminate].
  destruct (_sentences_to_ints lower (tr0 ++ te0) false) as [[X Xv]|] eqn:HX;
    cbn [bind fst snd] in H; [|discriminate].
  destruct (column 2 train_set) as [tr2|] eqn:H2; cbn [bind] in H;
    [|discriminate].
  destruct (column 2 test_set) as [te2|] eqn:H2'; cbn [bind] in H;
    [|discriminate].
  destruct (_sentences_to_ints lower (tr2 ++ te2) false) as [[Y Yv]|] eqn:HY;
    cbn [bind fst snd get_paddedXY_sequence] in H; [|discriminate].
  destruct (token_iterators _ _ _ _ _ _ _ _ _) as [tok|] eqn:Htok;
    cbn [bind] in H; [|discriminate].
  destruct (pos_iterators _ _ _ _ _ _) as [pos|] eqn:Hpos;
    cbn [bind] in H; [|discriminate].
  destruct (char_iterators _ _ _) as [chars|] eqn:Hchars;
    cbn [bind] in H; [|discriminate].
  apply column_eq in H0, H0', H2, H2'. subst tr0 te0 tr2 te2.
  rewrite <- map_app in HX, HY, Hchars.
  inversion H; subst out; clear H.
  exists X, Y, tok, pos, chars. cbn. repeat split; auto.
Qed.

(** X12. What a run of [gen_iterators] that returns leaves behind
    follows the flags: there is a POS vocabulary exactly with [use_pos],
    a character dictionary exactly with [use_chars], an embedding size
    exactly with [use_w2v]; and the two entries of the returned
    dictionary are single iterators when neither [use_pos] nor
    [use_chars] is set, and multi-stream iterators over the same number
    of streams otherwise. *)
Theorem gen_iterators_follows_flags :
  forall self (train_set test_set : list sentence) out,
    gen_iterators lower zeros load_word_embeddings self train_set test_set
    = Ok out ->
    (vocabs_pos out = None <-> use_pos self = false) /\
    (vocabs_char_rnn out = None <-> use_chars self = false) /\
    (emb_size out = None <-> use_w2v self = false) /\
    (use_pos self || use_chars self = false ->
     exists a b, data_train out = Single a /\ data_test out = Single b) /\
    (use_pos self || use_chars self = true ->
     exists tr te,
       data_train out = MultiSequenceDataIterator tr /\
       data_test out = MultiSequenceDataIterator te /\
       length tr = length te /\
       length tr = 1 + (if use_pos self then 1 else 0)
                     + (if use_chars self then 1 else 0)).
Proof.
  intros self train_set test_set out H.
  destruct (gen_iterators_structure _ _ _ _ H)
    as (X & Y & tok & pos & chars & _ & _ & Htok & Hpos & Hchars & Hvp & Hvc
        & Hemb & _ & Htr & Hte).
  pose proof (pos_iterators_count _ _ _ _ _ _ _ _ Hpos) as Hpc.
  pose proof (char_iterators_count _ _ _ _ _ Hchars) as Hcc.
  apply token_iterators_shape in Htok. destruct Htok as [Hw _].
  apply pos_iterators_shape in Hpos. destruct Hpos as (Hp & Hpl & _).
  apply char_iterators_shape in Hchars. destruct Hchars as (Hc & Hcl & _).
  rewrite Hvp, Hvc, Hemb, Htr, Hte. cbn [length].
  rewrite length_app, Hpc, Hcc.
  split; [exact Hp|]. split; [exact Hc|]. split; [exact Hw|].
  destruct (use_pos self), (use_chars self); cbn;
    (split; [intros Hf; try discriminate Hf; eauto
            |intros Hf; try discriminate Hf]).
  all: do 2 eexists; split; [reflexivity|]; split; [reflexivity|];
    cbn [length]; rewrite !length_app, Hpl, Hcl, Hpc, Hcc; auto.
Qed.
Lemma iterators_wrap_first (a b : TaggedTextSequence vec) ra rb :
  length ra = length rb ->
  iterators (if 1 <? length (a :: ra)
             then MultiSequenceDataIterator (b :: rb)
             else Single b) = b :: rb.
Proof.
  destruct ra, rb; simpl; try discriminate; auto.
Qed.

(** The iterators of a successful run: the token iterators first, then
    those of the POS and of the character stream. *)
Lemma gen_iterators_iterators self (train_set test_set : list sentence) out :
  gen_iterators lower zeros load_word_embeddings self train_set test_set
  = Ok out ->
  let n := length train_set in
  let corpus := train_set ++ test_set in
  exists X Y tok pos chars,
    _sentences_to_ints lower (map (col 0) corpus) false
      = Ok (X, vocabs_token out) /\
    _sentences_to_ints lower (map (col 2) corpus) false
      = Ok (Y, y_vocab out) /\
    token_iterators lower zeros load_word_embeddings self n
      (map (pad_row (sentence_length self)) X) (vocabs_token out)
      (map (pad_row (sentence_length self)) Y) (y_size out) = Ok tok /\
    pos_iterators lower self n train_set test_set
      (map (pad_row (sentence_length self)) Y) = Ok pos /\
    char_iterators self n (map (col 0) corpus) = Ok chars /\
    vocabs_pos out = fst (fst pos) /\
    vocabs_char_rnn out = fst (fst chars) /\
    y_size out = length (y_vocab out) + 1 /\
    iterators (data_train out)
      = snd (fst tok) :: snd (fst pos) ++ snd (fst chars) /\
    iterators (data_test out) = snd tok :: snd pos ++ snd chars.
Proof.
  intros H. intros n corpus.
  destruct (gen_iterators_structure _ _ _ _ H)
    as (X & Y & tok & pos & chars & HX & HY & Htok & Hpos & Hchars & Hvp & Hvc
        & _ & Hys & Htr & Hte).
  exists X, Y, tok, pos, chars.
  repeat (split; [assumption|]).
  destruct (pos_iterators_shape _ _ _ _ _ _ Hpos) as (_ & Hpl & _).
  destruct (char_iterators_shape _ _ _ _ Hchars) as (_ & Hcl & _).
  rewrite Htr, Hte. split; apply iterators_wrap_first;
    rewrite ?length_app; lia.
Qed.

(** X13. In a run that returns, [y_size] is the number of distinct chunk
    tags of the train and test sentences plus one; the first train
    iterator and the first test iterator carry labels and [y_size] as
    their number of classes; all further iterators carry neither. *)
Theorem gen_iterators_labels :
  forall self (train_set test_set : list sentence) out,
    gen_iterators lower zeros load_word_embeddings self train_set test_set
    = Ok out ->
    y_size out =
      length (firsts (concat (map (col 2) (train_set ++ test_set)))) + 1 /\
    exists a ra b rb,
      iterators (data_train out) = a :: ra /\
      iterators (data_test out) = b :: rb /\
      num_classes a = Some (y_size out) /\
      num_classes b = Some (y_size out) /\
      (exists la lb, y a = Some la /\ y b = Some lb) /\
      Forall (fun it => y it = None /\ num_classes it = None) (ra ++ rb).
Proof.
  intros self train_set test_set out H.
  destruct (gen_iterators_iterators _ _ _ _ H)
    as (X & Y & tok & pos & chars & _ & HY & Htok & Hpos & Hchars & _ & _
        & Hys & Htr & Hte).
  split.
  - rewrite Hys. f_equal. rewrite sentences_to_ints_eq in HY.
    inversion HY as [[HYi HYv]].
    rewrite length_combine, length_seq, Nat.min_id.
    rewrite (Permutation_length (ranked_perm lower false _)).
    unfold tokens. now rewrite map_id.
  - apply token_iterators_shape in Htok. destruct Htok as [_ Htok].
    inversion Htok as [|? ? (_ & Hna & _ & la & Hla) Htok']; subst.
    inversion Htok' as [|? ? (_ & Hnb & _ & lb & Hlb) _]; subst.
    apply pos_iterators_shape in Hpos. destruct Hpos as (_ & _ & Hpos).
    apply char_iterators_shape in Hchars. destruct Hchars as (_ & _ & Hchars).
    apply Forall_app in Hpos, Hchars.
    destruct Hpos as [Hp1 Hp2], Hchars as [Hc1 Hc2].
    assert (Himp : forall n (its : list (TaggedTextSequence vec)),
              Forall (plain n) its ->
              Forall (fun it : TaggedTextSequence vec =>
                        y it = None /\ num_classes it = None) its).
    { intros n its Hpl. eapply Forall_impl; [|exact Hpl].
      unfold plain. tauto. }
    exists (snd (fst tok)), (snd (fst pos) ++ snd (fst chars)),
           (snd tok), (snd pos ++ snd chars).
    split; [assumption|]. split; [assumption|].
    split; [assumption|]. split; [assumption|]. split; [eauto|].
    apply Forall_app; split; apply Forall_app; split;
      eapply Himp; eassumption.
Qed.

Lemma Forall_firstn_skipn {A} (P : A -> Prop) (n : nat) (l : list A) :
  Forall P l -> Forall P (firstn n l) /\ Forall P (skipn n l).
Proof.
  intros Hl. apply Forall_app. now rewrite firstn_skipn.
Qed.

Lemma first_row_length self vocab (s : sentence) :
  row_length (first_row lower zeros load_word_embeddings self vocab s)
  = sentence_length self.
Proof.
  unfold first_row, token_row. destruct (use_w2v self); simpl;
    rewrite ?length_map; apply length_pad_row.
Qed.

Lemma widths_of_functions (its : list (TaggedTextSequence vec))
    (fs : list (sentence -> row vec)) (g : (sentence -> row vec) -> list (row vec))
    (n : nat) :
  map rows_of its = map g fs ->
  (forall f, In f fs -> Forall (fun r => row_length r = n) (g f)) ->
  Forall (fun it => Forall (fun r => row_length r = n) (rows_of it)) its.
Proof.
  intros Hmap Hfs. apply Forall_forall. intros it Hit.
  assert (Hin : In (rows_of it) (map g fs))
    by (rewrite <- Hmap; now apply in_map).
  apply in_map_iff in Hin. destruct Hin as (f & <- & Hf). auto.
Qed.

Lemma Forall_map_rows {A} (f : A -> row vec) (n : nat) (l : list A) :
  (forall a, row_length (f a) = n) ->
  Forall (fun r => row_length r = n) (map f l).
Proof.
  intros Hf. apply Forall_forall. intros r Hr.
  apply in_map_iff in Hr. destruct Hr as (a & <- & _). auto.
Qed.

(** X14. In a run that returns, every row handed to an iterator has as
    many entries as the iterator has steps: [sentence_length] for the
    token (or vector) and POS streams, [chars_len * sentence_length] for
    the character stream. *)
Theorem gen_iterators_row_widths :
  forall self (train_set test_set : list sentence) out,
    gen_iterators lower zeros load_word_embeddings self train_set test_set
    = Ok out ->
    Forall (fun it => Forall (fun r => row_length r = steps it) (rows_of it))
           (iterators (data_train out) ++ iterators (data_test out)).
Proof.
  intros self train_set test_set out H.
  destruct (gen_iterators_iterators _ _ _ _ H)
    as (X & Y & tok & pos & chars & HX & HY & Htok & Hpos & Hchars & _ & _
        & _ & Htr & Hte).
  rewrite Htr, Hte.
  (* the token stream *)
  pose proof (token_iterators_shape _ _ _ _ _ _ _ Htok) as [_ Hts].
  inversion Hts as [|? ? (Hsa & _) Hts']; subst.
  inversion Hts' as [|? ? (Hsb & _) _]; subst.
  rewrite (sentences_to_ints_ids _ _ _ _ _ HX) in Htok.
  rewrite !map_map in Htok.
  apply (token_iterators_rows lower vec zeros load_word_embeddings self
           (length train_set) (train_set ++ test_set)) in Htok.
  destruct Htok as (Hra & Hrb & _).
  assert (Htokrows : Forall (fun r => row_length r = sentence_length self)
            (map (first_row lower zeros load_word_embeddings self
                            (vocabs_token out)) (train_set ++ test_set)))
    by (apply Forall_map_rows; intros; apply first_row_length).
  apply (Forall_firstn_skipn _ (length train_set)) in Htokrows.
  destruct Htokrows as [Hfa Hfb].
  (* the POS stream *)
  pose proof (pos_iterators_shape _ _ _ _ _ _ Hpos) as (_ & _ & Hps).
  apply pos_iterators_rows in Hpos. destruct Hpos as [Hp1 Hp2].
  assert (Hpf : forall f : sentence -> row vec,
                In f (pos_functions lower self (fst (fst pos))) ->
                forall s, row_length (f s) = sentence_length self).
  { intros f Hf s. destruct (fst (fst pos)); [|destruct Hf].
    destruct Hf as [<-|[]]. simpl. apply length_pad_row. }
  apply widths_of_functions with (n := sentence_length self) in Hp1, Hp2;
    try (intros f Hf; apply Forall_firstn_skipn, Forall_map_rows, Hpf, Hf).
  (* the character stream *)
  pose proof (char_iterators_shape _ _ _ _ Hchars) as (_ & _ & Hcs).
  apply char_iterators_rows in Hchars. destruct Hchars as [Hc1 Hc2].
  assert (Hcf : forall f : sentence -> row vec,
                In f (char_functions self (fst (fst chars))) ->
                forall s, row_length (f s)
                          = chars_len self * sentence_length self).
  { intros f Hf s. destruct (fst (fst chars)); [|destruct Hf].
    destruct Hf as [<-|[]]. simpl. rewrite Nat.mul_comm.
    apply concat_length_rows.
    - apply fitted_rows_length.
    - apply fitted_rows_width. apply Forall_forall. intros rr Hrr.
      apply in_map_iff in Hrr. destruct Hrr as (v & <- & _).
      apply length_pad_row. }
  apply widths_of_functions
    with (n := chars_len self * sentence_length self) in Hc1, Hc2;
    try (intros f Hf; apply Forall_firstn_skipn, Forall_map_rows, Hcf, Hf).
  apply Forall_app in Hps, Hcs. destruct Hps as [Hps1 Hps2], Hcs as [Hcs1 Hcs2].
  assert (Hjoin : forall n (its : list (TaggedTextSequence vec)),
            Forall (plain n) its ->
            Forall (fun it => Forall (fun r => row_length r = n) (rows_of it)) its ->
            Forall (fun it => Forall (fun r => row_length r = steps it)
                                     (rows_of it)) its).
  { intros n its Hpl Hw. rewrite Forall_forall in *. intros it Hit.
    destruct (Hpl it Hit) as [-> _]. auto. }
  apply Forall_app; split; (constructor; [|apply Forall_app; split]);
    try (eapply Hjoin; eassumption).
  - rewrite Hsa, Hra. exact Hfa.
  - rewrite Hsb, Hrb. exact Hfb.
Qed.
Lemma pos_iterators_vocab self n (train test : list sentence) yy r :
  @pos_iterators lower vec self n train test yy = Ok r ->
  use_pos self = true ->
  exists P v,
    fst (fst r) = Some v /\
    _sentences_to_ints lower (map (col 1) (train ++ test)) true = Ok (P, v).
Proof.
  unfold pos_iterators. intros H Hp. rewrite Hp in H.
  destruct (column 1 train) as [tr1|] eqn:H1; cbn [bind] in H; [|discriminate].
  destruct (column 1 test) as [te1|] eqn:H2; cbn [bind] in H; [|discriminate].
  destruct (_sentences_to_ints _ _ _) as [[P v]|] eqn:HP; cbn [bind] in H;
    [|discriminate].
  apply column_eq in H1, H2. subst tr1 te1. rewrite <- map_app in HP.
  inversion H; subst r. cbn. eauto.
Qed.

(** X15. With [use_pos], the POS vocabulary of a run that returns is the
    one [_sentences_to_ints] builds, with lower-casing, over the POS
    columns of the train sentences followed by the test sentences: every
    POS tag of the corpus has an id under its lower-cased form. *)
Theorem gen_iterators_pos_vocab :
  forall self (train_set test_set : list sentence) out,
    gen_iterators lower zeros load_word_embeddings self train_set test_set
    = Ok out ->
    use_pos self = true ->
    exists P v,
      vocabs_pos out = Some v /\
      _sentences_to_ints lower (map (col 1) (train_set ++ test_set)) true
      = Ok (P, v) /\
      forall s tag, In s (train_set ++ test_set) -> In tag (col 1 s) ->
                    exists i, Dict.get v (lower tag) = Some i.
Proof.
  intros self train_set test_set out H Hp.
  destruct (gen_iterators_iterators _ _ _ _ H)
    as (X & Y & tok & pos & chars & _ & _ & _ & Hpos & _ & Hvp & _).
  destruct (pos_iterators_vocab _ _ _ _ _ _ Hpos Hp) as (P & v & Hv & HP).
  exists P, v. rewrite Hvp. split; [exact Hv|]. split; [exact HP|].
  intros s tag Hs Htag. rewrite sentences_to_ints_eq in HP.
  inversion HP as [[HPi HPv]].
  rewrite get_combine_seq; eauto.
  apply ranked_In.
  apply (token_In lower true (map (col 1) (train_set ++ test_set)) (col 1 s) tag);
    auto.
  now apply in_map.
Qed.
End GenIteratorsShape.

Lemma gen_iterators_follows_flags_witness :
  exists out,
    gen_iterators str_lower ex_zeros ex_embeddings ex_self ex_train ex_test
    = Ok out /\
    (vocabs_pos out = None <-> use_pos ex_self = false) /\
    (vocabs_char_rnn out = None <-> use_chars ex_self = false) /\
    (emb_size out = None <-> use_w2v ex_self = false).
Proof.
  destruct (gen_iterators str_lower ex_zeros ex_embeddings ex_self
                          ex_train ex_test) as [out|e] eqn:H.
  - exists out. split; [reflexivity|].
    pose proof (gen_iterators_follows_flags str_lower nat ex_zeros
                  ex_embeddings ex_self ex_train ex_test out H) as P.
    destruct P as (H1 & H2 & H3 & _). auto.
  - vm_compute in H. discriminate H.
Defined.

Lemma gen_iterators_labels_witness :
  exists out,
    gen_iterators str_lower ex_zeros ex_embeddings ex_self ex_train ex_test
    = Ok out /\
    y_size out =
      length (firsts (concat (map (col 2) (ex_train ++ ex_test)))) + 1.
Proof.
  destruct (gen_iterators str_lower ex_zeros ex_embeddings ex_self
                          ex_train ex_test) as [out|e] eqn:H.
  - exists out. split; [reflexivity|].
    exact (proj1 (gen_iterators_labels str_lower nat ex_zeros
                    ex_embeddings ex_self ex_train ex_test out H)).
  - vm_compute in H. discriminate H.
Defined.

Lemma gen_iterators_row_widths_witness :
  exists out,
    gen_iterators str_lower ex_zeros ex_embeddings ex_self ex_train ex_test
    = Ok out /\
    Forall (fun it => Forall (fun r => row_length r = steps it) (rows_of it))
           (iterators (data_train out) ++ iterators (data_test out)).
Proof.
  destruct (gen_iterators str_lower ex_zeros ex_embeddings ex_self
                          ex_train ex_test) as [out|e] eqn:H.
  - exists out. split; [reflexivity|].
    exact (gen_iterators_row_widths str_lower nat ex_zeros
             ex_embeddings ex_self ex_train ex_test out H).
  - vm_compute in H. discriminate H.
Defined.

Lemma gen_iterators_pos_vocab_witness :
  exists out,
    gen_iterators str_lower ex_zeros ex_embeddings ex_self ex_train ex_test
    = Ok out /\
    use_pos ex_self = true /\
    exists P v,
      vocabs_pos out = Some v /\
      _sentences_to_ints str_lower (map (col 1) (ex_train ++ ex_test)) true
      = Ok (P, v).
Proof.
  destruct (gen_iterators str_lower ex_zeros ex_embeddings ex_self
                          ex_train ex_test) as [out|e] eqn:H.
  - exists out. split; [reflexivity|]. split; [reflexivity|].
    destruct (gen_iterators_pos_vocab str_lower nat ex_zeros
                ex_embeddings ex_self ex_train ex_test out H eq_refl)
      as (P & v & Hv & HP & _).
    eauto.
  - vm_compute in H. discriminate H.
Defined.

(** ** Feature assembler: degenerate lengths *)

(** X16. With [use_chars], a run of [gen_iterators] whose
    [sentence_length] or [chars_len] is 0 does not return: the reshape of
    line 219 asks numpy for rows of 0 cells, which it refuses, unless an
    earlier step has raised already. *)
Theorem gen_iterators_zero_length_chars :
  forall (lower : string -> string) (vec : Type) (zeros : nat -> vec)
         (load_word_embeddings : option string -> Dict.t string vec * nat)
         (self : CONLL2000) (train_set test_set : list sentence),
    use_chars self = true ->
    sentence_length self * chars_len self = 0 ->
    exists e,
      gen_iterators lower zeros load_word_embeddings self train_set test_set
      = Raise e.
Proof.
  intros lower vec zeros lwe self train_set test_set Hc Hz.
  destruct (gen_iterators lower zeros lwe self train_set test_set)
    as [out|e] eqn:H; [|eauto].
  exfalso.
  destruct (gen_iterators_structure _ _ _ _ _ _ _ _ H)
    as (X & Y & tok & pos & chars & _ & _ & _ & _ & Hchars & _).
  unfold char_iterators in Hchars. rewrite Hc, Hz in Hchars.
  rewrite create_char_features_eq in Hchars. discriminate Hchars.
Qed.

Lemma gen_iterators_zero_length_chars_witness :
  use_chars (Build_CONLL2000 "."%string 0 2 false true 4 false None) = true /\
  sentence_length (Build_CONLL2000 "."%string 0 2 false true 4 false None)
  * chars_len (Build_CONLL2000 "."%string 0 2 false true 4 false None) = 0 /\
  exists e,
    gen_iterators str_lower ex_zeros ex_embeddings
      (Build_CONLL2000 "."%string 0 2 false true 4 false None)
      ex_train ex_test = Raise e.
Proof.
  split; [reflexivity|]. split; [reflexivity|].
  exact (gen_iterators_zero_length_chars str_lower nat ex_zeros ex_embeddings
           (Build_CONLL2000 "."%string 0 2 false true 4 false None)
           ex_train ex_test eq_refl eq_refl).
Defined.

(** ** Download helper *)

Lemma prefix_before_first (sep s : string) : forall x,
  prefix x (before_first sep s) = true -> prefix x s = true.
Proof.
  induction s as [|c r IH]; intros x; cbn [before_first].
  - destruct (prefix sep EmptyString); auto.
  - destruct (prefix sep (String c r)).
    + intros Hx. destruct x; [reflexivity|simpl in Hx; discriminate].
    + destruct x as [|a x]; [reflexivity|]. simpl.
      destruct (ascii_dec a c); auto.
Qed.

Lemma contains_before_first (sep s : string) :
  sep <> EmptyString -> contains sep (before_first sep s) = false.
Proof.
  intros Hsep.
  assert (He : contains sep EmptyString = false).
  { simpl. destruct sep; [congruence|reflexivity]. }
  induction s as [|c r IH].
  - cbn [before_first]. destruct (prefix sep EmptyString); auto.
  - cbn [before_first]. destruct (prefix sep (String c r)) eqn:Hp; auto.
    cbn [contains]. rewrite IH, orb_false_r.
    destruct (prefix sep (String c (before_first sep r))) eqn:Hq; auto.
    pose proof (prefix_before_first sep (String c r) sep) as Hpre.
    cbn [before_first] in Hpre. rewrite Hp in Hpre.
    specialize (Hpre Hq). discriminate Hpre.
Qed.

Local Open Scope string_scope.
Lemma prefix_app (x y : string) : prefix x (x ++ y) = true.
Proof.
  induction x as [|a x IH]; cbn [prefix append].
  - now destruct y.
  - destruct (ascii_dec a a); [exact IH|congruence].
Qed.

Lemma gz_not_inside (p q : string) :
  contains ".gz" p = false -> p <> "" ->
  prefix ".gz" (p ++ ".gz" ++ q) = false.
Proof.
  intros Hc Hne.
  destruct p as [|a p]; [congruence|]. cbn [prefix append].
  destruct (ascii_dec "." a) as [<-|]; [|reflexivity].
  destruct p as [|b p]; cbn [prefix append].
  { destruct (ascii_dec "g" ".") as [e|]; [discriminate e|reflexivity]. }
  destruct (ascii_dec "g" b) as [<-|]; [|reflexivity].
  destruct p as [|c p]; cbn [prefix append].
  { destruct (ascii_dec "z" ".") as [e|]; [discriminate e|reflexivity]. }
  destruct (ascii_dec "z" c) as [<-|]; [|reflexivity].
  exfalso. cbn [contains] in Hc.
  change (String "." (String "g" (String "z" p))) with (".gz" ++ p) in Hc.
  rewrite prefix_app in Hc. discriminate Hc.
Qed.

Lemma before_first_prefix (sep s : string) :
  prefix sep s = true -> before_first sep s = "".
Proof. intros Hp. destruct s; cbn [before_first]; now rewrite Hp. Qed.

Lemma contains_prefix (sep s : string) :
  prefix sep s = true -> contains sep s = true.
Proof. intros Hp. destruct s; cbn [contains]; now rewrite Hp. Qed.

Lemma before_first_gz (p q : string) :
  contains ".gz" p = false -> before_first ".gz" (p ++ ".gz" ++ q) = p.
Proof.
  induction p as [|c r IH]; intros Hc.
  - apply before_first_prefix. apply (prefix_app ".gz" q).
  - pose proof (gz_not_inside (String c r) q Hc) as Hn.
    change (String c r ++ ".gz" ++ q) with (String c (r ++ ".gz" ++ q)) in *.
    cbn [before_first]. rewrite Hn by discriminate. f_equal. apply IH.
    cbn [contains] in Hc. apply orb_false_iff in Hc. tauto.
Qed.

Lemma contains_app_gz (p q : string) : contains ".gz" (p ++ ".gz" ++ q) = true.
Proof.
  induction p as [|c r IH].
  - apply contains_prefix. apply (prefix_app ".gz" q).
  - change (String c r ++ ".gz" ++ q) with (String c (r ++ ".gz" ++ q)).
    cbn [contains]. rewrite IH. apply orb_true_r.
Qed.

(** X17. The path [load_gzip] returns never contains ".gz".  A path
    without ".gz" is returned as it is; otherwise the path is cut at its
    first ".gz", so that not only a final ".gz" goes but everything after
    the first one, directories included. *)
Theorem load_gzip_path_spec :
  forall p q : string,
    contains ".gz" (load_gzip_path p) = false /\
    (contains ".gz" p = false ->
     load_gzip_path p = p /\ load_gzip_path (p ++ ".gz" ++ q) = p).
Proof.
  intros p q. unfold load_gzip_path. split.
  - destruct (contains ".gz" p) eqn:Hc; auto.
    apply contains_before_first. discriminate.
  - intros Hc. rewrite Hc, contains_app_gz. split; auto.
    now apply before_first_gz.
Qed.

Example load_gzip_path_ex :
  load_gzip_path "data/train.txt.gz" = "data/train.txt" /\
  load_gzip_path "data.gz.d/train.txt.gz" = "data" /\
  load_gzip_path "data/train.txt" = "data/train.txt".
Proof. repeat split. Qed.
Local Close Scope string_scope.

(** ** Corpus parser: the cells of a sentence *)

Lemma has_space_app (s : string) (c : ascii) :
  has_space s = false -> is_space c = false ->
  has_space (s ++ String c EmptyString) = false.
Proof.
  intros Hs Hc. induction s as [|a s IH]; simpl in *.
  - now rewrite Hc.
  - apply orb_false_iff in Hs. destruct Hs as [Ha Hs].
    rewrite Ha. simpl. auto.
Qed.

Lemma split_from_clean (s : string) : forall cur,
  has_space cur = false ->
  Forall (fun f => f <> EmptyString /\ has_space f = false) (split_from cur s).
Proof.
  induction s as [|c s IH]; intros cur Hcur; simpl.
  - destruct cur; repeat constructor; [discriminate|exact Hcur].
  - destruct (is_space c) eqn:Hc.
    + destruct cur.
      * now apply IH.
      * constructor; [split; [discriminate|exact Hcur]|]. now apply IH.
    + apply IH. now apply has_space_app.
Qed.

Lemma rstrip_clean (s : string) : has_space s = false -> rstrip s = s.
Proof.
  induction s as [|c s IH]; simpl; auto.
  intros Hs. apply orb_false_iff in Hs. destruct Hs as [Hc Hs].
  rewrite (IH Hs). destruct s; [now rewrite Hc|reflexivity].
Qed.

Lemma strip_clean (s : string) : has_space s = false -> strip s = s.
Proof.
  intros Hs. unfold strip.
  assert (Hl : lstrip s = s).
  { destruct s as [|c s]; simpl in *; auto.
    apply orb_false_iff in Hs. destruct Hs as [Hc _]. now rewrite Hc. }
  rewrite Hl. now apply rstrip_clean.
Qed.

Lemma fields_clean (l : string) :
  Forall (fun f => f <> EmptyString /\ has_space f = false) (fields l).
Proof.
  unfold fields, split.
  pose proof (split_from_clean (strip l) EmptyString eq_refl) as Hsp.
  induction Hsp as [|f fs [Hne Hf] _ IH]; simpl; constructor; auto.
  rewrite (strip_clean f Hf). auto.
Qed.

(** X18. Every cell of every column of every sentence that
    [parse_entries] produces is a field of a line of the file: it is not
    empty and has no whitespace in it. *)
Theorem parse_entries_cells_clean :
  forall lines : list string,
    Forall (Forall (Forall (fun cell =>
                      cell <> EmptyString /\ has_space cell = false)))
           (parse_entries lines).
Proof.
  intros lines. rewrite parse_entries_closed_blocks.
  apply Forall_forall. intros s Hs.
  apply in_map_iff in Hs. destruct Hs as (b & <- & _).
  apply Forall_forall. intros column Hcol.
  apply In_nth_error in Hcol. destruct Hcol as [k Hk].
  unfold sentence_of in Hk.
  assert (Hlt : k < length (zip_star (map fields b)))
    by (apply nth_error_Some; congruence).
  apply zip_star_length in Hlt. destruct Hlt as [_ Hall].
  rewrite (zip_star_nth EmptyString _ _ _ Hk), map_map.
  apply Forall_forall. intros cell Hcell.
  apply in_map_iff in Hcell. destruct Hcell as (l & <- & Hl).
  rewrite Forall_map, Forall_forall in Hall. specialize (Hall l Hl).
  pose proof (fields_clean l) as Hclean. rewrite Forall_forall in Hclean.
  apply Hclean. now apply nth_In.
Qed.

(** ** Vocabulary builder: sentence boundaries *)

(** X19. The vocabulary of [_sentences_to_ints] depends on the stream of
    tokens only, not on how the stream is cut into sentences: two inputs
    with the same tokens in the same order get the same vocabulary and
    the same ids. *)
Theorem sentences_to_ints_boundaries :
  forall (lower : string -> string) (texts texts' : list (list string))
         (lowercase : bool),
    concat texts = concat texts' ->
    exists ids ids' vocab,
      _sentences_to_ints lower texts lowercase = Ok (ids, vocab) /\
      _sentences_to_ints lower texts' lowercase = Ok (ids', vocab) /\
      concat ids = concat ids'.
Proof.
  intros lower texts texts' lowercase Heq.
  rewrite !sentences_to_ints_eq.
  assert (Hr : ranked lower lowercase texts = ranked lower lowercase texts').
  { unfold ranked. rewrite !count_words_fold. unfold tokens. now rewrite Heq. }
  rewrite Hr. do 3 eexists. split; [reflexivity|]. split; [reflexivity|].
  rewrite <- !concat_map. now rewrite Heq.
Qed.

Local Open Scope string_scope.
Lemma sentences_to_ints_boundaries_witness :
  concat [["a"; "b"]; ["a"]] = concat [["a"]; ["b"; "a"]] /\
  exists ids ids' vocab,
    _sentences_to_ints str_lower [["a"; "b"]; ["a"]] false = Ok (ids, vocab) /\
    _sentences_to_ints str_lower [["a"]; ["b"; "a"]] false = Ok (ids', vocab) /\
    concat ids = concat ids'.
Proof.
  assert (H : concat [["a"; "b"]; ["a"]] = concat [["a"]; ["b"; "a"]])
    by reflexivity.
  split; [exact H|].
  exact (sentences_to_ints_boundaries str_lower [["a"; "b"]; ["a"]]
           [["a"]; ["b"; "a"]] false H).
Defined.
Local Close Scope string_scope.
